(** * GeoChat session state: a shallow embedding of the App component

    The development follows the React component [App] of the map client:
    its state variables, the event handlers that enqueue state updates, the
    timer that moves Alice along [alicePath], and the effect that asks the
    routing service for routes whenever the waypoint array changes.

    - JavaScript numbers are binary64 floats ([PrimFloat.float]); [===] on
      numbers is [PrimFloat.eqb].  Integers that the code only counts with
      (array indices, ids) are [Z].
    - A handler is the list of [setX] calls it makes; React applies the
      queue in order, renders, and re-runs an effect when one of its
      dependencies got a new value.
    - A promise that awaits the network is a one-step interaction
      ([Async]); exceptions are an error monad ([Result]). *)

Set Warnings "-inexact-float".
From Stdlib Require Import String DecimalString ZArith List Bool Floats Lia.
Import ListNotations.
Local Open Scope Z_scope.

(** ** Types *)

Definition number := float.

(** [[number, number]]: longitude first, latitude second. *)
Definition Coord := (number * number)%type.

Module Blip.
Record t := mk
  { id : Z; longitude : number; latitude : number; text : string }.
End Blip.

Record RouteData := mkRouteData
  { coordinates : list Coord; duration : number; distance : number }.

Record Location := mkLocation { longitude : number; latitude : number }.

Module Friend.
Record t := mk
  { id : Z; name : string; avatar : string; status : string;
    lastMessage : string; unread : Z; location : Location }.
End Friend.

(** The value of [selection]: [{ lng, lat }]. *)
Record LngLat := mkLngLat { lng : number; lat : number }.

(** The value of [selectedWaypoint]: [{ index, lng, lat }]. *)
Record WaypointSel := mkWaypointSel
  { index : Z; wp_lng : number; wp_lat : number }.

(** ** Mock data *)

Definition initialFriends : list Friend.t :=
  [ Friend.mk 1 "Alice" "https://i.pravatar.cc/150?u=a042581f4e29026704d"
      "online" "See you on the map!" 2 (mkLocation (-122.41) 37.78);
    Friend.mk 2 "Bob" "https://i.pravatar.cc/150?u=a042581f4e29026704e"
      "offline" "Let's catch up later." 0 (mkLocation (-122.42) 37.79) ]%float.

Definition alicePath : list Coord :=
  [ (-122.41, 37.78); (-122.415, 37.782); (-122.42, 37.785);
    (-122.425, 37.782); (-122.42, 37.78); (-122.415, 37.778);
    (-122.41, 37.78) ]%float.

(** ** Array helpers *)

(** [Array.prototype.findIndex]: the first position whose element passes
    the test, [-1] when none does. *)
Fixpoint findIndex {A : Type} (p : A -> bool) (l : list A) : Z :=
  match l with
  | [] => -1
  | x :: t =>
      if p x then 0
      else let r := findIndex p t in if r <? 0 then -1 else r + 1
  end.

(** [Array.prototype.filter] with the two-argument callback
    [(element, idx)]; [from] is the position of the head of [l]. *)
Fixpoint filterIdx {A : Type} (p : A -> Z -> bool) (from : Z) (l : list A)
  : list A :=
  match l with
  | [] => []
  | x :: t =>
      if p x from then x :: filterIdx p (from + 1) t
      else filterIdx p (from + 1) t
  end.

(** [arr[i]] for an integer [i]: [None] is [undefined]. *)
Definition at_index {A : Type} (l : list A) (i : Z) : option A :=
  if i <? 0 then None else nth_error l (Z.to_nat i).

(** ** Exceptions and promises *)

Inductive Error :=
| NetworkError            (* fetch() rejected *)
| HttpError (status : Z)  (* new Error(`HTTP error! status: ...`) *)
| SyntaxError             (* res.json() rejected *)
| TypeError.              (* property read on undefined *)

Inductive Result (A : Type) :=
| Ok (a : A)
| Throw (e : Error).
Arguments Ok {A} a.
Arguments Throw {A} e.

Definition bind {A B : Type} (c : Result A) (k : A -> Result B) : Result B :=
  match c with
  | Ok a => k a
  | Throw e => Throw e
  end.

(** [try { c } catch (error) { h error }]. *)
Definition try_catch {A : Type} (c : Result A) (h : Error -> Result A)
  : Result A :=
  match c with
  | Ok a => Ok a
  | Throw e => h e
  end.

Notation "x <- c ;; k" := (bind c (fun x => k))
  (at level 61, c at next level, right associativity).

Fixpoint mapM {A B : Type} (f : A -> Result B) (l : list A)
  : Result (list B) :=
  match l with
  | [] => Ok []
  | x :: t => y <- f x ;; ys <- mapM f t ;; Ok (y :: ys)
  end.

(** The request sent to the routing service.  The URL text
    [lon1,lat1;lon2,lat2;...] is kept as the coordinate list it is printed
    from; [alternatives] is the [alternatives=true] query parameter. *)
Record Url := mkUrl { url_coords : list Coord; alternatives : bool }.

(** One element of [data.routes].  [geometry = None] is a route object
    without a [geometry] member. *)
Record OsrmRoute := mkOsrmRoute
  { geometry : option (list Coord); osrm_duration : number;
    osrm_distance : number }.

(** The parsed body: [body_routes = None] is a body without [routes]. *)
Record OsrmBody := mkOsrmBody { body_routes : option (list OsrmRoute) }.

(** The HTTP response: [json = None] is a body that [res.json()] rejects. *)
Record HttpResponse := mkHttpResponse
  { ok : bool; http_status : Z; json : option OsrmBody }.

(** What [await fetch(url)] comes back with. *)
Inductive FetchOutcome :=
| Rejected
| Responded (res : HttpResponse).

(** An async function with at most one network round trip. *)
Inductive Async (A : Type) :=
| Return (a : A)
| Await (url : Url) (k : FetchOutcome -> A).
Arguments Return {A} a.
Arguments Await {A} url k.

Definition awaitFetch (o : FetchOutcome) : Result HttpResponse :=
  match o with
  | Rejected => Throw NetworkError
  | Responded res => Ok res
  end.

Definition awaitJson (res : HttpResponse) : Result OsrmBody :=
  match json res with
  | Some data => Ok data
  | None => Throw SyntaxError
  end.

(** [r.geometry.coordinates]. *)
Definition geometryCoordinates (r : OsrmRoute) : Result (list Coord) :=
  match geometry r with
  | Some cs => Ok cs
  | None => Throw TypeError
  end.

(** ** API *)

(** [fetchRoutes] of the current application. *)
Definition fetchRoutes (waypoints : list Coord)
  : Async (Result (list RouteData)) :=
  if (length waypoints <? 2)%nat then Return (Ok [])
  else
    Await (mkUrl waypoints true) (fun o =>
      try_catch
        (res <- awaitFetch o ;;
         _ <- (if ok res then Ok tt else Throw (HttpError (http_status res))) ;;
         data <- awaitJson res ;;
         match body_routes data with
         | None => Ok []
         | Some rs =>
             (* an array is truthy, so [|| []] keeps the mapped array *)
             mapM (fun r =>
                     cs <- geometryCoordinates r ;;
                     Ok (mkRouteData cs (osrm_duration r) (osrm_distance r)))
                  rs
         end)
        (fun _ => Ok [])).

(** [fetchRoute] of the earlier single-route application (src/App.tsx). *)
Definition fetchRoute (waypoints : list Coord)
  : Async (Result (list Coord)) :=
  if (length waypoints <? 2)%nat then Return (Ok [])
  else
    Await (mkUrl waypoints false) (fun o =>
      try_catch
        (res <- awaitFetch o ;;
         _ <- (if ok res then Ok tt else Throw (HttpError (http_status res))) ;;
         data <- awaitJson res ;;
         match body_routes data with
         | Some (r0 :: _) => geometryCoordinates r0
         | _ => Ok []
         end)
        (* Fallback to a straight line in case of an API error *)
        (fun _ => Ok waypoints)).

(** What the promise settles with once the network has answered [o]. *)
Definition settle {A : Type} (p : Async A) (o : FetchOutcome) : A :=
  match p with
  | Return a => a
  | Await _ k => k o
  end.

(** The request a promise puts on the network, if any. *)
Definition requested {A : Type} (p : Async A) : option Url :=
  match p with
  | Return _ => None
  | Await u _ => Some u
  end.

(** ** The state variables of [App] *)

Record State := mkState
  { friends : list Friend.t;
    blips : list Blip.t;
    waypoints : list Coord;
    routes : list RouteData;
    selectedRouteIndex : Z;
    isLoadingRoute : bool;
    selection : option LngLat;
    selectedWaypoint : option WaypointSel;
    selectedBlip : option Blip.t;
    userLocation : option Coord;
    isSidebarOpen : bool;
    is3D : bool;
    isDrawing : bool;
    drawnPolygon : list Coord }.

(** The [useState] initial values. *)
Definition initialState : State :=
  {| friends := initialFriends;
     blips := [Blip.mk 1 (-122.45)%float 37.77%float "Cool graffiti"];
     waypoints := [];
     routes := [];
     selectedRouteIndex := 0;
     isLoadingRoute := false;
     selection := None;
     selectedWaypoint := None;
     selectedBlip := None;
     userLocation := None;
     isSidebarOpen := false;
     is3D := false;
     isDrawing := false;
     drawnPolygon := [] |}.

(** A call of a state setter.  The setters that the code calls with an
    updater function carry the function; [setWaypoints(v)] with a value is
    [setWaypoints (fun _ => v)]. *)
Inductive SetState :=
| setFriends (f : list Friend.t -> list Friend.t)
| setWaypoints (f : list Coord -> list Coord)
| setRoutes (v : list RouteData)
| setSelectedRouteIndex (v : Z)
| setIsLoadingRoute (v : bool)
| setSelection (v : option LngLat)
| setSelectedWaypoint (v : option WaypointSel)
| setSelectedBlip (v : option Blip.t)
| setUserLocation (v : option Coord)
| setIsSidebarOpen (v : bool)
| setIs3D (v : bool)
| setIsDrawing (v : bool)
| setDrawnPolygon (f : list Coord -> list Coord).

(** One queued update applied to the state. *)
Definition reduce (s : State) (u : SetState) : State :=
  match u with
  | setFriends f =>
      mkState (f (friends s)) (blips s) (waypoints s) (routes s)
        (selectedRouteIndex s) (isLoadingRoute s) (selection s)
        (selectedWaypoint s) (selectedBlip s) (userLocation s)
        (isSidebarOpen s) (is3D s) (isDrawing s) (drawnPolygon s)
  | setWaypoints f =>
      mkState (friends s) (blips s) (f (waypoints s)) (routes s)
        (selectedRouteIndex s) (isLoadingRoute s) (selection s)
        (selectedWaypoint s) (selectedBlip s) (userLocation s)
        (isSidebarOpen s) (is3D s) (isDrawing s) (drawnPolygon s)
  | setRoutes v =>
      mkState (friends s) (blips s) (waypoints s) v
        (selectedRouteIndex s) (isLoadingRoute s) (selection s)
        (selectedWaypoint s) (selectedBlip s) (userLocation s)
        (isSidebarOpen s) (is3D s) (isDrawing s) (drawnPolygon s)
  | setSelectedRouteIndex v =>
      mkState (friends s) (blips s) (waypoints s) (routes s)
        v (isLoadingRoute s) (selection s)
        (selectedWaypoint s) (selectedBlip s) (userLocation s)
        (isSidebarOpen s) (is3D s) (isDrawing s) (drawnPolygon s)
  | setIsLoadingRoute v =>
      mkState (friends s) (blips s) (waypoints s) (routes s)
        (selectedRouteIndex s) v (selection s)
        (selectedWaypoint s) (selectedBlip s) (userLocation s)
        (isSidebarOpen s) (is3D s) (isDrawing s) (drawnPolygon s)
  | setSelection v =>
      mkState (friends s) (blips s) (waypoints s) (routes s)
        (selectedRouteIndex s) (isLoadingRoute s) v
        (selectedWaypoint s) (selectedBlip s) (userLocation s)
        (isSidebarOpen s) (is3D s) (isDrawing s) (drawnPolygon s)
  | setSelectedWaypoint v =>
      mkState (friends s) (blips s) (waypoints s) (routes s)
        (selectedRouteIndex s) (isLoadingRoute s) (selection s)
        v (selectedBlip s) (userLocation s)
        (isSidebarOpen s) (is3D s) (isDrawing s) (drawnPolygon s)
  | setSelectedBlip v =>
      mkState (friends s) (blips s) (waypoints s) (routes s)
        (selectedRouteIndex s) (isLoadingRoute s) (selection s)
        (selectedWaypoint s) v (userLocation s)
        (isSidebarOpen s) (is3D s) (isDrawing s) (drawnPolygon s)
  | setUserLocation v =>
      mkState (friends s) (blips s) (waypoints s) (routes s)
        (selectedRouteIndex s) (isLoadingRoute s) (selection s)
        (selectedWaypoint s) (selectedBlip s) v
        (isSidebarOpen s) (is3D s) (isDrawing s) (drawnPolygon s)
  | setIsSidebarOpen v =>
      mkState (friends s) (blips s) (waypoints s) (routes s)
        (selectedRouteIndex s) (isLoadingRoute s) (selection s)
        (selectedWaypoint s) (selectedBlip s) (userLocation s)
        v (is3D s) (isDrawing s) (drawnPolygon s)
  | setIs3D v =>
      mkState (friends s) (blips s) (waypoints s) (routes s)
        (selectedRouteIndex s) (isLoadingRoute s) (selection s)
        (selectedWaypoint s) (selectedBlip s) (userLocation s)
        (isSidebarOpen s) v (isDrawing s) (drawnPolygon s)
  | setIsDrawing v =>
      mkState (friends s) (blips s) (waypoints s) (routes s)
        (selectedRouteIndex s) (isLoadingRoute s) (selection s)
        (selectedWaypoint s) (selectedBlip s) (userLocation s)
        (isSidebarOpen s) (is3D s) v (drawnPolygon s)
  | setDrawnPolygon f =>
      mkState (friends s) (blips s) (waypoints s) (routes s)
        (selectedRouteIndex s) (isLoadingRoute s) (selection s)
        (selectedWaypoint s) (selectedBlip s) (userLocation s)
        (isSidebarOpen s) (is3D s) (isDrawing s) (f (drawnPolygon s))
  end.

(** The batch of updates queued by one handler, applied in order. *)
Definition commit (us : list SetState) (s : State) : State :=
  fold_left reduce us s.

(** The dependency array of the route effect is [[waypoints]]: every
    [setWaypoints] call of the code stores a freshly built array, so the
    effect is due exactly when the batch contains one. *)
Definition waypointsChanged (us : list SetState) : bool :=
  existsb (fun u => match u with setWaypoints _ => true | _ => false end) us.

(** ** The simulation of Alice *)

(** [p[0] === alice.location.longitude && p[1] === alice.location.latitude] *)
Definition sameSpot (loc : Location) (p : Coord) : bool :=
  PrimFloat.eqb (fst p) (longitude loc) && PrimFloat.eqb (snd p) (latitude loc).

Definition withLocation (f : Friend.t) (l : Location) : Friend.t :=
  Friend.mk (Friend.id f) (Friend.name f) (Friend.avatar f) (Friend.status f)
    (Friend.lastMessage f) (Friend.unread f) l.

(** The updater passed to [setFriends] by the interval callback.  The read
    [alicePath[nextIndex]] is in bounds (lemma [nextIndex_in_path]); the
    [None] arm keeps the function total. *)
Definition moveAlice (prevFriends : list Friend.t) : list Friend.t :=
  match find (fun f => Friend.id f =? 1) prevFriends with
  | None => prevFriends
  | Some alice =>
      let currentIndex := findIndex (sameSpot (Friend.location alice)) alicePath in
      let nextIndex := Z.rem (currentIndex + 1) (Z.of_nat (length alicePath)) in
      match at_index alicePath nextIndex with
      | None => prevFriends
      | Some p =>
          let nextLocation := mkLocation (fst p) (snd p) in
          map (fun f => if Friend.id f =? 1 then withLocation f nextLocation else f)
            prevFriends
      end
  end.

(** ** Event handlers *)

Definition handleMapClick (s : State) (x y : number) (onMarker : bool)
  : list SetState :=
  if isDrawing s then [setDrawnPolygon (fun prev => prev ++ [(x, y)])]
  else if onMarker then []
  else [setSelection (Some (mkLngLat x y)); setSelectedWaypoint None;
        setSelectedBlip None].

Definition addWaypoint (s : State) : list SetState :=
  match selection s with
  | Some sel =>
      [setWaypoints (fun p => p ++ [(lng sel, lat sel)]); setSelection None]
  | None => []
  end.

Definition deleteWaypoint (i : Z) : list SetState :=
  [setWaypoints (fun p => filterIdx (fun _ idx => negb (idx =? i)) 0 p);
   setSelectedWaypoint None].

Definition routeToBlip (s : State) : list SetState :=
  match userLocation s, selectedBlip s with
  | Some here, Some b =>
      [setWaypoints (fun _ => [here; (Blip.longitude b, Blip.latitude b)]);
       setSelectedBlip None]
  | _, _ => []
  end.

Definition toggleDrawing (s : State) : list SetState :=
  setIsDrawing (negb (isDrawing s))
  :: (if isDrawing s then (* Finished drawing *) []
      else [setDrawnPolygon (fun _ => []); setWaypoints (fun _ => [])]).

Definition toggle3D (s : State) : list SetState :=
  [setIs3D (negb (is3D s))].

(** The [.then] callback of the route effect; [mounted] is the value of
    its [isMounted] variable when the promise settles. *)
Definition onRoutes (mounted : bool) (d : list RouteData) : list SetState :=
  if mounted
  then [setRoutes d; setSelectedRouteIndex 0; setIsLoadingRoute false]
  else [].

(** ** The route effect and the event loop *)

(** A request that [fetchRoutes] has put on the network: where it went,
    the rest of the async function, which [isMounted] variable its [.then]
    callback reads, and whether the answer has already arrived. *)
Record Request := mkRequest
  { req_url : Url;
    resume : FetchOutcome -> Result (list RouteData);
    guard : nat;
    settled : bool }.

(** The component together with what its closures own: one [isMounted]
    variable per run of the effect body that got past the length test, the
    requests issued so far, and the cleanup function returned by the last
    run of the effect ([Some c] resets variable [c]; [None] when that run
    returned early). *)
Record Runtime := mkRuntime
  { app : State;
    isMounted : list bool;
    requests : list Request;
    cleanup : option nat }.

Fixpoint setNth {A : Type} (n : nat) (v : A) (l : list A) : list A :=
  match l, n with
  | [], _ => []
  | _ :: t, O => v :: t
  | x :: t, S m => x :: setNth m v t
  end.

(** [() => { isMounted = false; }], run before the effect runs again. *)
Definition runCleanup (r : Runtime) : list bool :=
  match cleanup r with
  | Some c => setNth c false (isMounted r)
  | None => isMounted r
  end.

(** The effect with dependency [[waypoints]]: cleanup of the previous run,
    then the body. *)
Definition routeEffect (r : Runtime) : Runtime :=
  let flags := runCleanup r in
  let s := app r in
  if (length (waypoints s) <? 2)%nat then
    mkRuntime (commit [setRoutes []] s) flags (requests r) None
  else
    let c := length flags in
    let s1 := commit [setIsLoadingRoute true] s in
    match fetchRoutes (waypoints s) with
    | Await u k =>
        mkRuntime s1 (flags ++ [true])
          (requests r ++ [mkRequest u k c false]) (Some c)
    | Return res =>
        (* a promise settled without the network: its callback runs
           before any other event, with [isMounted] still [true] *)
        mkRuntime
          (match res with
           | Ok d => commit (onRoutes true d) s1
           | Throw _ => s1
           end)
          (flags ++ [true]) (requests r) (Some c)
    end.

(** A batch of updates, the render that follows, and the effect when its
    dependency changed. *)
Definition render (us : list SetState) (r : Runtime) : Runtime :=
  let r' := mkRuntime (commit us (app r)) (isMounted r) (requests r)
              (cleanup r) in
  if waypointsChanged us then routeEffect r' else r'.

(** The answer [o] to request number [n] arrives: the async function
    resumes and the [.then] callback runs.  A rejected promise would run no
    callback. *)
Definition deliver (n : nat) (o : FetchOutcome) (r : Runtime) : Runtime :=
  match nth_error (requests r) n with
  | None => r
  | Some q =>
      if settled q then r
      else
        let r' := mkRuntime (app r) (isMounted r)
                    (setNth n (mkRequest (req_url q) (resume q) (guard q) true)
                       (requests r))
                    (cleanup r) in
        match resume q o with
        | Ok d => render (onRoutes (nth (guard q) (isMounted r) false) d) r'
        | Throw _ => r'
        end
  end.

(** What reaches the component: the invocations of its handlers, however
    they were triggered (pointer or keyboard).  Widget events carry the
    render-time condition of their widget: a click on a widget that is not
    rendered does nothing.  [addBlip] is left out: no statement below
    concerns points of interest being created. *)
Inductive Event :=
| Tick
| MapClick (x y : number) (onMarker : bool)
| BlipMarkerClick (n : nat)
| WaypointMarkerClick (i : nat)
| AddWaypointClick
| DeleteWaypointClick
| RouteToBlipClick
| CloseSelection
| CloseWaypointPopup
| CloseBlipPopup
| ToggleDrawing
| Toggle3D
| OpenSidebar
| CloseSidebar
| Located (x y : number)
| SelectRoute (i : nat)
| ClearAllWaypoints
| ClearArea
| RouteResponse (n : nat) (o : FetchOutcome).

Definition handler (e : Event) (s : State) : list SetState :=
  match e with
  | Tick => [setFriends moveAlice]
  | MapClick x y onMarker => handleMapClick s x y onMarker
  | BlipMarkerClick n =>
      match nth_error (blips s) n with
      | Some b => [setSelectedBlip (Some b)]
      | None => []
      end
  | WaypointMarkerClick i =>
      match nth_error (waypoints s) i with
      | Some wp =>
          [setSelectedWaypoint
             (Some (mkWaypointSel (Z.of_nat i) (fst wp) (snd wp)))]
      | None => []
      end
  | AddWaypointClick => addWaypoint s
  | DeleteWaypointClick =>
      match selectedWaypoint s with
      | Some w => deleteWaypoint (index w)
      | None => []
      end
  | RouteToBlipClick => routeToBlip s
  | CloseSelection =>
      match selection s with Some _ => [setSelection None] | None => [] end
  | CloseWaypointPopup =>
      match selectedWaypoint s with
      | Some _ => [setSelectedWaypoint None]
      | None => []
      end
  | CloseBlipPopup =>
      match selectedBlip s with
      | Some _ => [setSelectedBlip None]
      | None => []
      end
  | ToggleDrawing => toggleDrawing s
  | Toggle3D => toggle3D s
  | OpenSidebar => [setIsSidebarOpen true]
  | CloseSidebar => [setIsSidebarOpen false]
  | Located x y => [setUserLocation (Some (x, y))]
  | SelectRoute i =>
      if (i <? length (routes s))%nat
      then [setSelectedRouteIndex (Z.of_nat i)] else []
  | ClearAllWaypoints =>
      if (0 <? length (waypoints s))%nat && negb (isDrawing s)
      then [setWaypoints (fun _ => []); setRoutes []] else []
  | ClearArea =>
      if (0 <? length (drawnPolygon s))%nat && negb (isDrawing s)
      then [setDrawnPolygon (fun _ => [])] else []
  | RouteResponse _ _ => []
  end.

Definition dispatch (e : Event) (r : Runtime) : Runtime :=
  match e with
  | RouteResponse n o => deliver n o r
  | _ => render (handler e (app r)) r
  end.

Definition run (es : list Event) (r : Runtime) : Runtime :=
  fold_left (fun r e => dispatch e r) es r.

(** The component after mounting: the effect has run once. *)
Definition initial : Runtime :=
  routeEffect (mkRuntime initialState [] [] None).

(** The sequence of states of an execution, one per event. *)
Fixpoint trace (es : list Event) (r : Runtime) : list Runtime :=
  match es with
  | [] => []
  | e :: es' => dispatch e r :: trace es' (dispatch e r)
  end.

(** ** The drawn-area layer *)

(** [DrawnPolygonLayer]: the rings handed to [source.setData].  With more
    than two vertices the ring is closed with [drawnPolygon[0]]; the test
    on the length makes that read defined, so the arm for the empty list
    is never taken. *)
Definition polyCoords (drawnPolygon : list Coord) : list (list Coord) :=
  if (2 <? length drawnPolygon)%nat
  then [drawnPolygon ++ match drawnPolygon with
                        | p0 :: _ => [p0]
                        | [] => []
                        end]
  else [drawnPolygon].

(** One run of the effect of [DrawnPolygonLayer].  [source] is the polygon
    of the map source 'drawn-polygon' ([None]: the map has no such source
    yet); [ready] is [isLoaded && map].  The first run adds the source with
    no coordinates, later runs set its data. *)
Definition drawnPolygonLayer (ready : bool) (drawnPolygon : list Coord)
           (source : option (list (list Coord)))
  : option (list (list Coord)) :=
  if negb ready then source
  else match source with
       | None => Some []
       | Some _ => Some (polyCoords drawnPolygon)
       end.

(** ** The avatar (components/ui/avatar) *)

Module Avatar.

(** [!src]: no [src] property, or the empty string. *)
Definition missing (src : option string) : bool :=
  match src with
  | None => true
  | Some EmptyString => true
  | Some _ => false
  end.

(** The [src] property of the last render and the [hasError] state. *)
Record State := mkState { src : option string; hasError : bool }.

(** [useState(!src)]; the effect of the first render sets the same
    value. *)
Definition mount (s : option string) : State := mkState s (missing s).

(** [src && !hasError]: the [img] element is rendered, otherwise the
    fallback text. *)
Definition showsImage (st : State) : bool :=
  negb (missing (src st)) && negb (hasError st).

(** A render with a [src] property, or the [error] event of the image. *)
Inductive Event :=
| Render (s : option string)
| ImgError.

(** [Object.is] on two values of the [src] property. *)
Definition sameSrc (a b : option string) : bool :=
  match a, b with
  | None, None => true
  | Some x, Some y => String.eqb x y
  | _, _ => false
  end.

(** The effect [setHasError(!src)] has dependency [[src]]: it runs when
    the property differs from that of the previous render.  [onError] is a
    handler of the [img] element, so it can only run while the image is
    rendered. *)
Definition step (e : Event) (st : State) : State :=
  match e with
  | Render s =>
      if sameSrc s (src st) then mkState s (hasError st)
      else mkState s (missing s)
  | ImgError =>
      if showsImage st then mkState (src st) true else st
  end.

Definition run (es : list Event) (st : State) : State :=
  fold_left (fun st e => step e st) es st.

End Avatar.

(** ** The single-route application (src/App.tsx) *)

Module Legacy.

Record State := mkState
  { blips : list Blip.t;
    waypoints : list Coord;
    route : list Coord;
    selection : option LngLat;
    isSidebarOpen : bool }.

Definition initialState : State :=
  {| blips := [Blip.mk 1 (-122.45)%float 37.77%float "Cool graffiti"];
     waypoints := [];
     route := [];
     selection := None;
     isSidebarOpen := false |}.

Inductive SetState :=
| setBlips (f : list Blip.t -> list Blip.t)
| setWaypoints (f : list Coord -> list Coord)
| setRoute (v : list Coord)
| setSelection (v : option LngLat)
| setIsSidebarOpen (v : bool).

Definition reduce (s : State) (u : SetState) : State :=
  match u with
  | setBlips f =>
      mkState (f (blips s)) (waypoints s) (route s) (selection s)
        (isSidebarOpen s)
  | setWaypoints f =>
      mkState (blips s) (f (waypoints s)) (route s) (selection s)
        (isSidebarOpen s)
  | setRoute v =>
      mkState (blips s) (waypoints s) v (selection s) (isSidebarOpen s)
  | setSelection v =>
      mkState (blips s) (waypoints s) (route s) v (isSidebarOpen s)
  | setIsSidebarOpen v =>
      mkState (blips s) (waypoints s) (route s) (selection s) v
  end.

Definition commit (us : list SetState) (s : State) : State :=
  fold_left reduce us s.

Definition waypointsChanged (us : list SetState) : bool :=
  existsb (fun u => match u with setWaypoints _ => true | _ => false end) us.

(** [`${n}`] for a count [n]. *)
Definition decimal (n : nat) : string :=
  NilZero.string_of_uint (Nat.to_uint n).

Definition handleMapClick (x y : number) (onMarker : bool)
  : list SetState :=
  if onMarker then [] else [setSelection (Some (mkLngLat x y))].

(** [now] is the value of [Date.now()]. *)
Definition addBlip (now : Z) (s : State) : list SetState :=
  match selection s with
  | None => []
  | Some sel =>
      let newBlip :=
        Blip.mk now (lng sel) (lat sel)
          ("Blip #" ++ decimal (length (blips s) + 1)) in
      [setBlips (fun prev => prev ++ [newBlip]); setSelection None]
  end.

Definition addWaypoint (s : State) : list SetState :=
  match selection s with
  | None => []
  | Some sel =>
      [setWaypoints (fun prev => prev ++ [(lng sel, lat sel)]);
       setSelection None]
  end.

(** The [.then] callback: [if (isMounted) setRoute(routeCords)]. *)
Definition onRoute (mounted : bool) (routeCords : list Coord)
  : list SetState :=
  if mounted then [setRoute routeCords] else [].

Record Request := mkRequest
  { req_url : Url;
    resume : FetchOutcome -> Result (list Coord);
    guard : nat;
    settled : bool }.

Record Runtime := mkRuntime
  { app : State;
    isMounted : list bool;
    requests : list Request;
    cleanup : option nat }.

Definition runCleanup (r : Runtime) : list bool :=
  match cleanup r with
  | Some c => setNth c false (isMounted r)
  | None => isMounted r
  end.

(** The effect with dependency [[waypoints]]. *)
Definition routeEffect (r : Runtime) : Runtime :=
  let flags := runCleanup r in
  let s := app r in
  if (length (waypoints s) <? 2)%nat then
    mkRuntime (commit [setRoute []] s) flags (requests r) None
  else
    let c := length flags in
    match fetchRoute (waypoints s) with
    | Await u k =>
        mkRuntime s (flags ++ [true]) (requests r ++ [mkRequest u k c false])
          (Some c)
    | Return res =>
        mkRuntime
          (match res with
           | Ok cs => commit (onRoute true cs) s
           | Throw _ => s
           end)
          (flags ++ [true]) (requests r) (Some c)
    end.

Definition render (us : list SetState) (r : Runtime) : Runtime :=
  let r' := mkRuntime (commit us (app r)) (isMounted r) (requests r)
              (cleanup r) in
  if waypointsChanged us then routeEffect r' else r'.

Definition deliver (n : nat) (o : FetchOutcome) (r : Runtime) : Runtime :=
  match nth_error (requests r) n with
  | None => r
  | Some q =>
      if settled q then r
      else
        let r' := mkRuntime (app r) (isMounted r)
                    (setNth n (mkRequest (req_url q) (resume q) (guard q) true)
                       (requests r))
                    (cleanup r) in
        match resume q o with
        | Ok cs => render (onRoute (nth (guard q) (isMounted r) false) cs) r'
        | Throw _ => r'
        end
  end.

Inductive Event :=
| MapClick (x y : number) (onMarker : bool)
| AddBlipClick (now : Z)
| AddWaypointClick
| CloseSelection
| ClearRoute
| OpenSidebar
| CloseSidebar
| RouteResponse (n : nat) (o : FetchOutcome).

Definition handler (e : Event) (s : State) : list SetState :=
  match e with
  | MapClick x y onMarker => handleMapClick x y onMarker
  | AddBlipClick now => addBlip now s
  | AddWaypointClick => addWaypoint s
  | CloseSelection =>
      match selection s with Some _ => [setSelection None] | None => [] end
  | ClearRoute =>
      if (0 <? length (waypoints s))%nat
      then [setWaypoints (fun _ => []); setRoute []] else []
  | OpenSidebar => [setIsSidebarOpen true]
  | CloseSidebar => [setIsSidebarOpen false]
  | RouteResponse _ _ => []
  end.

Definition dispatch (e : Event) (r : Runtime) : Runtime :=
  match e with
  | RouteResponse n o => deliver n o r
  | _ => render (handler e (app r)) r
  end.

Definition run (es : list Event) (r : Runtime) : Runtime :=
  fold_left (fun r e => dispatch e r) es r.

Definition initial : Runtime :=
  routeEffect (mkRuntime initialState [] [] None).

(** [route.length > 1]: the route line is drawn. *)
Definition showsRoute (s : State) : bool := (1 <? length (route s))%nat.

(** A click on the map at [fst v], then "Add Blip" at time [snd v]. *)
Definition pin (v : Coord * Z) : list Event :=
  [MapClick (fst (fst v)) (snd (fst v)) false; AddBlipClick (snd v)].

(** The blips that pinning [vs] adds when [n] blips exist already. *)
Fixpoint pinned (n : nat) (vs : list (Coord * Z)) : list Blip.t :=
  match vs with
  | [] => []
  | v :: vs' =>
      Blip.mk (snd v) (fst (fst v)) (snd (fst v))
        ("Blip #" ++ decimal (n + 1))
      :: pinned (S n) vs'
  end.

End Legacy.

(** * Vocabulary of the properties *)

(** The failures of a route request: the fetch itself fails, the status is
    not a success, the body does not parse, or the body carries no route
    (no [routes] member, or an empty list). *)
Definition failed (o : FetchOutcome) : Prop :=
  match o with
  | Rejected => True
  | Responded res =>
      ok res = false \/
      match json res with
      | None => True
      | Some data => body_routes data = None \/ body_routes data = Some []
      end
  end.

(** The failures that reach the [catch] clause. *)
Definition raised (o : FetchOutcome) : bool :=
  match o with
  | Rejected => true
  | Responded res =>
      negb (ok res) || match json res with None => true | Some _ => false end
  end.

(** Request [n] is superseded: the [isMounted] variable that its callback
    reads has been reset. *)
Definition superseded (r : Runtime) (n : nat) : Prop :=
  exists q, nth_error (requests r) n = Some q /\
            (guard q < length (isMounted r))%nat /\
            nth (guard q) (isMounted r) false = false.

(** Request [n] is current: not yet answered, and the [isMounted] variable
    of its callback still holds [true]. *)
Definition live (r : Runtime) (n : nat) (q : Request) : Prop :=
  nth_error (requests r) n = Some q /\
  settled q = false /\
  nth (guard q) (isMounted r) false = true.

(** What holds of the component at every moment after mounting: only the
    [isMounted] variable of the last run of the effect can still be [true],
    that run got past the length test only with two or more waypoints, and
    with fewer than two the routes are empty. *)
Definition settledDown (r : Runtime) : Prop :=
  (forall g, nth g (isMounted r) false = true -> cleanup r = Some g) /\
  (cleanup r <> None -> (2 <= length (waypoints (app r)))%nat) /\
  ((length (waypoints (app r)) < 2)%nat -> routes (app r) = []).

(** The peer that the timer moves: the first friend with id 1. *)
Definition alice (fs : list Friend.t) : option Friend.t :=
  find (fun f => Friend.id f =? 1) fs.

(** The place of entry [i] of [alicePath]. *)
Definition pathLocation (i : Z) : option Location :=
  option_map (fun p => mkLocation (fst p) (snd p)) (at_index alicePath i).

(** The position index of the peer: the code keeps none, and recovers it
    from the current coordinate with [findIndex]. *)
Definition positionIndex (fs : list Friend.t) : option Z :=
  option_map (fun a => findIndex (sameSpot (Friend.location a)) alicePath)
    (alice fs).

(** [N] ticks of the timer. *)
Definition ticks (N : nat) (fs : list Friend.t) : list Friend.t :=
  Nat.iter N moveAlice fs.

(** Where a peer standing at [loc] goes on the next tick. *)
Definition advance (loc : Location) : option Location :=
  pathLocation
    (Z.rem (findIndex (sameSpot loc) alicePath + 1)
       (Z.of_nat (length alicePath))).

(** Two records of the same friend, up to where the friend is. *)
Definition sameButLocation (f f' : Friend.t) : Prop :=
  Friend.id f' = Friend.id f /\
  Friend.name f' = Friend.name f /\
  Friend.avatar f' = Friend.avatar f /\
  Friend.status f' = Friend.status f /\
  Friend.lastMessage f' = Friend.lastMessage f /\
  Friend.unread f' = Friend.unread f.

(** 1 for a state variable that holds a value, 0 for [null]. *)
Definition held {A : Type} (v : option A) : nat :=
  match v with Some _ => 1 | None => 0 end.

(** How many of the three selection variables hold a value. *)
Definition activeSelections (s : State) : nat :=
  held (selection s) + held (selectedWaypoint s) + held (selectedBlip s).

(** The bound that the chosen route is meant to respect. *)
Definition indexInBounds (s : State) : Prop :=
  0 <= selectedRouteIndex s
  < Z.max 1 (Z.of_nat (length (routes s))).

(** A request for the current waypoint array is outstanding: not yet
    answered, and its [isMounted] variable still [true]. *)
Definition outstanding (r : Runtime) : bool :=
  existsb (fun q => negb (settled q) && nth (guard q) (isMounted r) false)
    (requests r).

(** The loading flag along an execution. *)
Definition loadingTrace (es : list Event) : list bool :=
  map (fun r => isLoadingRoute (app r)) (trace es initial).

(** ** Sample data for the scenarios *)

(** Three places on the map. *)
Definition pointA : Coord := (-122.41, 37.78)%float.
Definition pointB : Coord := (-122.42, 37.79)%float.
Definition pointC : Coord := (-122.43, 37.80)%float.

(** A route object and a successful response of the routing service. *)
Definition routeVia (cs : list Coord) (secs metres : number) : OsrmRoute :=
  mkOsrmRoute (Some cs) secs metres.

Definition answer (rs : list OsrmRoute) : FetchOutcome :=
  Responded (mkHttpResponse true 200 (Some (mkOsrmBody (Some rs)))).

(** A single route of 600 seconds and 5000 metres. *)
Definition oneRoute : FetchOutcome :=
  answer [routeVia [pointA; pointB] 600%float 5000%float].

(** Three alternatives. *)
Definition threeRoutes : FetchOutcome :=
  answer [routeVia [pointA; pointB] 600%float 5000%float;
          routeVia [pointA; pointC; pointB] 700%float 5600%float;
          routeVia [pointA; pointB; pointB] 900%float 6100%float].

(** Two clicks on the map, each followed by "Add Waypoint". *)
Definition placeAB : list Event :=
  [MapClick (fst pointA) (snd pointA) false; AddWaypointClick;
   MapClick (fst pointB) (snd pointB) false; AddWaypointClick].

(** The waypoint array replaced by [[A, B]], and by [[A, B, C]]. *)
Definition toAB : list SetState :=
  [setWaypoints (fun _ => [pointA; pointB])].

Definition toABC : list SetState :=
  [setWaypoints (fun _ => [pointA; pointB; pointC])].

(** A state with three waypoints, the first of them selected. *)
Definition threeWaypoints : State :=
  commit [setWaypoints (fun _ => [pointA; pointB; pointC]);
          setSelectedWaypoint
            (Some (mkWaypointSel 0 (fst pointA) (snd pointA)))]
    initialState.

(** ** Vocabulary of the further properties *)

(** A request as [fetchRoutes] builds it: the [alternatives=true] query and
    at least two coordinates in the path. *)
Definition wellFormedRequest (q : Request) : Prop :=
  alternatives (req_url q) = true /\
  (2 <= length (url_coords (req_url q)))%nat.

(** Every request reads an [isMounted] variable that exists, and no two
    requests read the same one. *)
Definition freshGuards (r : Runtime) : Prop :=
  (forall n q, nth_error (requests r) n = Some q ->
               (guard q < length (isMounted r))%nat) /\
  (forall n m q q',
      nth_error (requests r) n = Some q ->
      nth_error (requests r) m = Some q' ->
      guard q = guard q' -> n = m).

(** While a request is current, the loading flag is set. *)
Definition spinnerOn (r : Runtime) : Prop :=
  (exists n q, live r n q) -> isLoadingRoute (app r) = true.

(** The chosen route is never negative, and names one of the routes
    whenever there are routes. *)
Definition indexOK (s : State) : Prop :=
  0 <= selectedRouteIndex s /\
  (routes s <> [] ->
   selectedRouteIndex s < Z.of_nat (length (routes s))).

(** The state variables after the batch of updates of event [e]. *)
Definition handled (e : Event) (r : Runtime) : Runtime :=
  mkRuntime (commit (handler e (app r)) (app r)) (isMounted r) (requests r)
    (cleanup r).

(** The request record once its answer has arrived. *)
Definition answered (q : Request) : Request :=
  mkRequest (req_url q) (resume q) (guard q) true.

(** The request sent for the waypoints [[A, B]]. *)
Definition requestAB : Request :=
  mkRequest (mkUrl [pointA; pointB] true)
    (settle (fetchRoutes [pointA; pointB])) 0 false.

(** A click on the map at [p], then "Add Waypoint" in the popup. *)
Definition place (p : Coord) : list Event :=
  [MapClick (fst p) (snd p) false; AddWaypointClick].

(** The source after the effect has run for each of the drawn areas [ds]
    in turn, on a loaded map without the source. *)
Definition layerAfter (ds : list (list Coord))
  : option (list (list Coord)) :=
  fold_left (fun source d => drawnPolygonLayer true d source) ds None.

(** What [fetchRoutes] makes of one route object. *)
Definition routeData (g : list Coord * number * number) : RouteData :=
  mkRouteData (fst (fst g)) (snd (fst g)) (snd g).

(** A route object of the service with its geometry. *)
Definition osrmRoute (g : list Coord * number * number) : OsrmRoute :=
  mkOsrmRoute (Some (fst (fst g))) (snd (fst g)) (snd g).

(** A successful response with the routes [rs]. *)
Definition okResponse (st : Z) (rs : list OsrmRoute) : FetchOutcome :=
  Responded (mkHttpResponse true st (Some (mkOsrmBody (Some rs)))).

(** The [src] of the current user's avatar. *)
Definition currentUserAvatar : option string :=
  Some "https://github.com/shadcn.png"%string.

(** The waypoints of the single-route application replaced by
    [[A, B]]. *)
Definition legacyToAB : list Legacy.SetState :=
  [Legacy.setWaypoints (fun _ => [pointA; pointB])].

(** ** Vocabulary of executions *)

(** The events whose handlers never call [setWaypoints]. *)
Definition keepsWaypoints (e : Event) : bool :=
  match e with
  | AddWaypointClick | DeleteWaypointClick | RouteToBlipClick
  | ToggleDrawing | ClearAllWaypoints => false
  | _ => true
  end.

(** The events that leave request [n] pending and its waypoints current:
    they keep the waypoints and are not the answer to [n]. *)
Definition bystander (n : nat) (e : Event) : bool :=
  keepsWaypoints e &&
  match e with
  | RouteResponse m _ => negb (m =? n)%nat
  | _ => true
  end.

(** Event [e] puts a request on the network: its handler stores a new
    waypoint array, of two or more entries. *)
Definition issues (e : Event) (r : Runtime) : Prop :=
  waypointsChanged (handler e (app r)) = true /\
  (2 <= length (waypoints (app (dispatch e r))))%nat.

(** No request is current. *)
Definition noLive (r : Runtime) : Prop :=
  forall m q, ~ live r m q.

(** The gestures of a drawing session: clicks on the map and on markers.
    A click that lands on a marker reaches the marker's own handler and
    the map's, as [BlipMarkerClick] or [WaypointMarkerClick] and a
    [MapClick] with the marker flag set. *)
Definition drawingGesture (e : Event) : bool :=
  match e with
  | MapClick _ _ _ | BlipMarkerClick _ | WaypointMarkerClick _ => true
  | _ => false
  end.

(** The points clicked on the map, in order. *)
Definition vertices (es : list Event) : list Coord :=
  flat_map (fun e => match e with
                     | MapClick x y _ => [(x, y)]
                     | _ => []
                     end) es.

(** The point of interest selected after the gestures [es]: that of the
    last click on a marker of [bs], or [sb] when there was none. *)
Definition lastBlipClicked (bs : list Blip.t) (es : list Event)
           (sb : option Blip.t) : option Blip.t :=
  fold_left (fun sb e => match e with
                         | BlipMarkerClick n =>
                             match nth_error bs n with
                             | Some b => Some b
                             | None => sb
                             end
                         | _ => sb
                         end) es sb.

(** An execution for the scenarios: [A] placed and [B] clicked; then
    "Add Waypoint" sends the request for [[A, B]]; a tick and a click at
    [C]; then "Add Waypoint" sends the request for [[A, B, C]]. *)
Definition beforeG1 : list Event :=
  [MapClick (fst pointA) (snd pointA) false; AddWaypointClick;
   MapClick (fst pointB) (snd pointB) false].

Definition betweenG1G2 : list Event :=
  [Tick; MapClick (fst pointC) (snd pointC) false].

(** A tick, then the late answer to the first request. *)
Definition afterG2 : list Event := [Tick; RouteResponse 0 threeRoutes].

(** ** Vocabulary of executions of the single-route application *)

(** Request [n] is current. *)
Definition legacyLive (r : Legacy.Runtime) (n : nat) (q : Legacy.Request)
  : Prop :=
  nth_error (Legacy.requests r) n = Some q /\
  Legacy.settled q = false /\
  nth (Legacy.guard q) (Legacy.isMounted r) false = true.

(** Request [n] is superseded. *)
Definition legacySuperseded (r : Legacy.Runtime) (n : nat) : Prop :=
  exists q, nth_error (Legacy.requests r) n = Some q /\
            (Legacy.guard q < length (Legacy.isMounted r))%nat /\
            nth (Legacy.guard q) (Legacy.isMounted r) false = false.

(** No request is current. *)
Definition legacyNoLive (r : Legacy.Runtime) : Prop :=
  forall m q, ~ legacyLive r m q.

(** What holds of the closures at every moment: only the [isMounted]
    variable of the last run of the effect can still be [true]; every
    request reads a variable that exists; no two read the same one. *)
Definition legacySound (r : Legacy.Runtime) : Prop :=
  (forall g, nth g (Legacy.isMounted r) false = true ->
             Legacy.cleanup r = Some g) /\
  (forall n q, nth_error (Legacy.requests r) n = Some q ->
               (Legacy.guard q < length (Legacy.isMounted r))%nat) /\
  (forall n m q q',
      nth_error (Legacy.requests r) n = Some q ->
      nth_error (Legacy.requests r) m = Some q' ->
      Legacy.guard q = Legacy.guard q' -> n = m).

(** The events whose handlers never call [setWaypoints]. *)
Definition legacyKeepsWaypoints (e : Legacy.Event) : bool :=
  match e with
  | Legacy.AddWaypointClick | Legacy.ClearRoute => false
  | _ => true
  end.

(** The events that leave request [n] pending and its waypoints
    current. *)
Definition legacyBystander (n : nat) (e : Legacy.Event) : bool :=
  legacyKeepsWaypoints e &&
  match e with
  | Legacy.RouteResponse m _ => negb (m =? n)%nat
  | _ => true
  end.

(** Event [e] puts a request on the network. *)
Definition legacyIssues (e : Legacy.Event) (r : Legacy.Runtime) : Prop :=
  Legacy.waypointsChanged (Legacy.handler e (Legacy.app r)) = true /\
  (2 <= length (Legacy.waypoints (Legacy.app (Legacy.dispatch e r))))%nat.

(** The state variables after the batch of updates of event [e]. *)
Definition legacyHandled (e : Legacy.Event) (r : Legacy.Runtime)
  : Legacy.Runtime :=
  Legacy.mkRuntime
    (Legacy.commit (Legacy.handler e (Legacy.app r)) (Legacy.app r))
    (Legacy.isMounted r) (Legacy.requests r) (Legacy.cleanup r).

(** The request record once its answer has arrived. *)
Definition legacyAnswered (q : Legacy.Request) : Legacy.Request :=
  Legacy.mkRequest (Legacy.req_url q) (Legacy.resume q) (Legacy.guard q) true.

(** An execution of the single-route application for the scenarios: [A]
    placed and [B] clicked; "Add Waypoint" sends the first request; the
    sidebar opened and [C] clicked; "Add Waypoint" sends the second. *)
Definition legacyBeforeG1 : list Legacy.Event :=
  [Legacy.MapClick (fst pointA) (snd pointA) false; Legacy.AddWaypointClick;
   Legacy.MapClick (fst pointB) (snd pointB) false].

Definition legacyBetween : list Legacy.Event :=
  [Legacy.OpenSidebar; Legacy.MapClick (fst pointC) (snd pointC) false].

(** The sidebar closed, then the late answer to the first request. *)
Definition legacyAfter : list Legacy.Event :=
  [Legacy.CloseSidebar; Legacy.RouteResponse 0 oneRoute].

(** * Properties *)

(** ** Routing failures *)

Lemma fetchRoutes_short (ws : list Coord) :
  (length ws < 2)%nat -> fetchRoutes ws = Return (Ok []).
Proof.
  intros H. unfold fetchRoutes.
  destruct (Nat.ltb_spec (length ws) 2) as [_ | Hge]; [reflexivity | lia].
Qed.

Lemma fetchRoutes_long (ws : list Coord) :
  (2 <= length ws)%nat ->
  exists k, fetchRoutes ws = Await (mkUrl ws true) k /\
            forall o, exists d, k o = Ok d.
Proof.
  intros H. unfold fetchRoutes.
  destruct (Nat.ltb_spec (length ws) 2) as [Hlt | _]; [lia |].
  eexists; split; [reflexivity |].
  intros o. cbv beta.
  match goal with
  | |- exists d, try_catch ?c _ = Ok d => destruct c as [d | e]
  end; eexists; reflexivity.
Qed.

(** The promise of [fetchRoutes] never rejects. *)
Lemma fetchRoutes_total (ws : list Coord) (o : FetchOutcome) :
  exists d, settle (fetchRoutes ws) o = Ok d.
Proof.
  destruct (Nat.lt_ge_cases (length ws) 2) as [Hlt | Hge].
  - rewrite (fetchRoutes_short ws Hlt). eexists; reflexivity.
  - destruct (fetchRoutes_long ws Hge) as (k & -> & Hk). apply Hk.
Qed.

Lemma fetchRoutes_failed (ws : list Coord) (o : FetchOutcome) :
  failed o -> settle (fetchRoutes ws) o = Ok [].
Proof.
  intros Hf. unfold fetchRoutes.
  destruct (length ws <? 2)%nat; [reflexivity |].
  destruct o as [| [okay st [[[rs |]] |]]]; simpl in *;
    try reflexivity; destruct okay; simpl; try reflexivity.
  - destruct Hf as [Hf | [Hf | Hf]]; try discriminate.
    injection Hf as ->. reflexivity.
Qed.

Lemma fetchRoute_failed (ws : list Coord) (o : FetchOutcome) :
  (2 <= length ws)%nat -> failed o ->
  settle (fetchRoute ws) o = Ok (if raised o then ws else []).
Proof.
  intros Hlen Hf. unfold fetchRoute.
  destruct (Nat.ltb_spec (length ws) 2) as [Hlt | _]; [lia |].
  destruct o as [| [okay st [[[rs |]] |]]]; simpl in *;
    try reflexivity; destruct okay; simpl; try reflexivity.
  destruct Hf as [Hf | [Hf | Hf]]; try discriminate.
  injection Hf as ->. reflexivity.
Qed.

(** ** The route effect *)

Lemma setNth_length {A : Type} (n : nat) (v : A) (l : list A) :
  length (setNth n v l) = length l.
Proof.
  revert n; induction l as [| x t IH]; intros [| n]; simpl; auto.
Qed.

Lemma nth_setNth_same (n : nat) (l : list bool) :
  nth n (setNth n false l) false = false.
Proof.
  revert n; induction l as [| x t IH]; intros [| n]; simpl; auto.
Qed.

Lemma nth_setNth_false (c g : nat) (l : list bool) :
  nth g l false = false -> nth g (setNth c false l) false = false.
Proof.
  revert c g; induction l as [| x t IH]; intros [| c] [| g]; simpl; auto.
Qed.

Lemma nth_error_setNth_other {A : Type} (n m : nat) (v : A) (l : list A) :
  n <> m -> nth_error (setNth n v l) m = nth_error l m.
Proof.
  revert n m; induction l as [| x t IH]; intros [| n] [| m] H; simpl; auto;
    try congruence.
Qed.

Lemma nth_error_setNth_same {A : Type} (n : nat) (v x : A) (l : list A) :
  nth_error l n = Some x -> nth_error (setNth n v l) n = Some v.
Proof.
  revert n; induction l as [| y t IH]; intros [| n] H; simpl in *;
    try discriminate; auto.
Qed.

Lemma runCleanup_length (r : Runtime) :
  length (runCleanup r) = length (isMounted r).
Proof.
  unfold runCleanup. destruct (cleanup r); [apply setNth_length | reflexivity].
Qed.

Lemma runCleanup_false (r : Runtime) (g : nat) :
  nth g (isMounted r) false = false -> nth g (runCleanup r) false = false.
Proof.
  unfold runCleanup. destruct (cleanup r); [apply nth_setNth_false | auto].
Qed.

Lemma runCleanup_current (r : Runtime) (c : nat) :
  cleanup r = Some c -> nth c (runCleanup r) false = false.
Proof.
  unfold runCleanup. intros ->. apply nth_setNth_same.
Qed.

(** The effect on fewer than two waypoints: routes cleared, nothing sent. *)
Lemma routeEffect_short (r : Runtime) :
  (length (waypoints (app r)) < 2)%nat ->
  routeEffect r =
  mkRuntime (commit [setRoutes []] (app r)) (runCleanup r) (requests r) None.
Proof.
  intros H. unfold routeEffect.
  destruct (Nat.ltb_spec (length (waypoints (app r))) 2); [reflexivity | lia].
Qed.

(** The effect on two or more waypoints: one request sent, guarded by a
    fresh [isMounted] variable. *)
Lemma routeEffect_long (r : Runtime) :
  (2 <= length (waypoints (app r)))%nat ->
  routeEffect r =
  mkRuntime (commit [setIsLoadingRoute true] (app r))
    (runCleanup r ++ [true])
    (requests r ++
       [mkRequest (mkUrl (waypoints (app r)) true)
          (settle (fetchRoutes (waypoints (app r))))
          (length (runCleanup r)) false])
    (Some (length (runCleanup r))).
Proof.
  intros H. unfold routeEffect, fetchRoutes.
  destruct (Nat.ltb_spec (length (waypoints (app r))) 2); [lia | reflexivity].
Qed.

(** Case analysis on the length test of the effect. *)
Ltac effect_cases r :=
  let Hs := fresh "Hshort" in
  let Hl := fresh "Hlong" in
  destruct (Nat.lt_ge_cases (length (waypoints (app r))) 2) as [Hs | Hl];
  [rewrite (routeEffect_short r Hs) | rewrite (routeEffect_long r Hl)].

(** Case analysis on the event and on the tests of its handler. *)
Ltac handler_cases e :=
  destruct e; simpl;
  unfold handleMapClick, addWaypoint, deleteWaypoint, routeToBlip,
    toggleDrawing, toggle3D;
  repeat match goal with
         | |- context [match ?x with _ => _ end] => destruct x
         end;
  simpl.

Lemma render_quiet (us : list SetState) (r : Runtime) :
  waypointsChanged us = false ->
  render us r =
  mkRuntime (commit us (app r)) (isMounted r) (requests r) (cleanup r).
Proof. intros H. unfold render. rewrite H. reflexivity. Qed.

Lemma render_effect (us : list SetState) (r : Runtime) :
  waypointsChanged us = true ->
  render us r =
  routeEffect
    (mkRuntime (commit us (app r)) (isMounted r) (requests r) (cleanup r)).
Proof. intros H. unfold render. rewrite H. reflexivity. Qed.

Lemma superseded_routeEffect (r : Runtime) (n : nat) :
  superseded r n -> superseded (routeEffect r) n.
Proof.
  intros (q & Hq & Hlt & Hoff).
  pose proof (runCleanup_length r) as Hlen.
  pose proof (runCleanup_false r (guard q) Hoff) as Hoff'.
  effect_cases r.
  - exists q; simpl.
    repeat split; [assumption | lia | assumption].
  - exists q; simpl.
    split; [| split].
    + rewrite nth_error_app1; [assumption |].
      apply nth_error_Some. congruence.
    + rewrite length_app; simpl; lia.
    + rewrite app_nth1 by lia. assumption.
Qed.

Lemma superseded_render (us : list SetState) (r : Runtime) (n : nat) :
  superseded r n -> superseded (render us r) n.
Proof.
  intros H. unfold render. destruct (waypointsChanged us).
  - apply superseded_routeEffect. exact H.
  - exact H.
Qed.

Lemma onRoutes_quiet (m : bool) (d : list RouteData) :
  waypointsChanged (onRoutes m d) = false.
Proof. destruct m; reflexivity. Qed.

Lemma superseded_deliver (r : Runtime) (n m : nat) (o : FetchOutcome) :
  superseded r n -> superseded (deliver m o r) n.
Proof.
  intros (q & Hq & Hlt & Hoff). unfold deliver.
  destruct (nth_error (requests r) m) as [qm |] eqn:Hm;
    [| exists q; auto].
  destruct (settled qm) eqn:Hs; [exists q; auto |].
  assert (Hkeep : superseded
            (mkRuntime (app r) (isMounted r)
               (setNth m (mkRequest (req_url qm) (resume qm) (guard qm) true)
                  (requests r)) (cleanup r)) n).
  { destruct (Nat.eq_dec m n) as [-> | Hne].
    - rewrite Hq in Hm. injection Hm as <-.
      eexists; simpl; split;
        [eapply nth_error_setNth_same; eassumption | simpl; auto].
    - exists q; simpl. rewrite nth_error_setNth_other by assumption. auto. }
  destruct (resume qm o); [apply superseded_render |]; exact Hkeep.
Qed.

Lemma superseded_dispatch (e : Event) (r : Runtime) (n : nat) :
  superseded r n -> superseded (dispatch e r) n.
Proof.
  intros H. destruct e; simpl;
    first [apply superseded_deliver | apply superseded_render]; exact H.
Qed.

Lemma superseded_run (es : list Event) (r : Runtime) (n : nat) :
  superseded r n -> superseded (run es r) n.
Proof.
  revert r; induction es as [| e es IH]; intros r H; simpl; [exact H |].
  apply IH, superseded_dispatch, H.
Qed.

(** The answer to a superseded request changes no state variable. *)
Lemma superseded_inert (r : Runtime) (n : nat) (o : FetchOutcome) :
  superseded r n -> app (deliver n o r) = app r.
Proof.
  intros (q & Hq & _ & Hoff). unfold deliver. rewrite Hq.
  destruct (settled q); [reflexivity |].
  destruct (resume q o); [| reflexivity].
  rewrite Hoff. reflexivity.
Qed.

Lemma deliver_isMounted (r : Runtime) (n : nat) (o : FetchOutcome) :
  isMounted (deliver n o r) = isMounted r.
Proof.
  unfold deliver. destruct (nth_error (requests r) n) as [q |]; [| reflexivity].
  destruct (settled q); [reflexivity |].
  destruct (resume q o); [| reflexivity].
  rewrite render_quiet by apply onRoutes_quiet. reflexivity.
Qed.

Lemma deliver_requests_other (r : Runtime) (n m : nat) (o : FetchOutcome) :
  m <> n ->
  nth_error (requests (deliver m o r)) n = nth_error (requests r) n.
Proof.
  intros Hne. unfold deliver.
  destruct (nth_error (requests r) m) as [q |]; [| reflexivity].
  destruct (settled q); [reflexivity |].
  destruct (resume q o);
    [rewrite render_quiet by apply onRoutes_quiet |]; simpl;
    apply nth_error_setNth_other; assumption.
Qed.

Lemma live_deliver_other (r : Runtime) (n m : nat) (q : Request)
      (o : FetchOutcome) :
  m <> n -> live r n q -> live (deliver m o r) n q.
Proof.
  intros Hne (Hq & Hs & Hon). unfold live.
  rewrite deliver_requests_other by assumption.
  rewrite deliver_isMounted. auto.
Qed.

(** The answer to the current request is applied. *)
Lemma deliver_live (r : Runtime) (n : nat) (q : Request) (o : FetchOutcome)
      (d : list RouteData) :
  live r n q -> resume q o = Ok d ->
  app (deliver n o r) =
  commit [setRoutes d; setSelectedRouteIndex 0; setIsLoadingRoute false]
    (app r).
Proof.
  intros (Hq & Hs & Hon) Hd. unfold deliver.
  rewrite Hq, Hs, Hd, Hon. reflexivity.
Qed.

Lemma commit_waypoints_frame (us : list SetState) (s : State) :
  waypointsChanged us = false -> waypoints (commit us s) = waypoints s.
Proof.
  revert s; induction us as [| u us IH]; intros s H; [reflexivity |].
  simpl in H. apply orb_false_elim in H as [Hu Hus].
  unfold commit in *; simpl. rewrite (IH _ Hus).
  destruct u; try reflexivity; discriminate.
Qed.

Lemma routeEffect_waypoints (r : Runtime) :
  waypoints (app (routeEffect r)) = waypoints (app r).
Proof.
  effect_cases r; reflexivity.
Qed.

Lemma render_waypoints (us : list SetState) (r : Runtime) :
  waypoints (app (render us r)) = waypoints (commit us (app r)).
Proof.
  unfold render. destruct (waypointsChanged us); [| reflexivity].
  rewrite routeEffect_waypoints. reflexivity.
Qed.

(** A change of the waypoint array to two or more entries issues request
    number [length (requests r)], which is then current, and supersedes the
    request of the previous run of the effect. *)
Lemma render_issues (us : list SetState) (r : Runtime) :
  waypointsChanged us = true ->
  (2 <= length (waypoints (commit us (app r))))%nat ->
  let r' := render us r in
  exists q,
    requests r' = requests r ++ [q] /\
    req_url q = mkUrl (waypoints (commit us (app r))) true /\
    resume q = settle (fetchRoutes (waypoints (commit us (app r)))) /\
    live r' (length (requests r)) q /\
    cleanup r' = Some (guard q) /\
    (guard q < length (isMounted r'))%nat /\
    (forall c, cleanup r = Some c -> (c < length (isMounted r))%nat ->
               nth c (isMounted r') false = false) /\
    app r' = commit [setIsLoadingRoute true] (commit us (app r)).
Proof.
  intros Hch Hlen r'. subst r'. rewrite (render_effect us r Hch).
  set (ra := mkRuntime (commit us (app r)) (isMounted r) (requests r)
               (cleanup r)).
  rewrite (routeEffect_long ra Hlen). eexists; simpl.
  repeat split; simpl; try reflexivity.
  - rewrite nth_error_app2 by lia. rewrite Nat.sub_diag. reflexivity.
  - rewrite app_nth2 by lia. rewrite Nat.sub_diag. reflexivity.
  - rewrite length_app; simpl; lia.
  - intros c Hc Hlt. rewrite app_nth1.
    + apply (runCleanup_current ra). exact Hc.
    + rewrite (runCleanup_length ra). exact Hlt.
Qed.

(** ** Fewer than two waypoints *)

Lemma runCleanup_all_false (r : Runtime) (g : nat) :
  (forall g, nth g (isMounted r) false = true -> cleanup r = Some g) ->
  nth g (runCleanup r) false = false.
Proof.
  intros H. destruct (nth g (isMounted r) false) eqn:Hg.
  - apply runCleanup_current, H, Hg.
  - apply runCleanup_false. exact Hg.
Qed.

Lemma settledDown_routeEffect (r : Runtime) :
  (forall g, nth g (isMounted r) false = true -> cleanup r = Some g) ->
  settledDown (routeEffect r).
Proof.
  intros H.
  effect_cases r.
  - repeat split; simpl.
    + intros g Hg. rewrite (runCleanup_all_false r g H) in Hg. discriminate.
    + congruence.
  - repeat split; simpl.
    + intros g Hg.
      destruct (Nat.lt_ge_cases g (length (runCleanup r))) as [Hlt | Hge].
      * rewrite app_nth1 in Hg by exact Hlt.
        rewrite (runCleanup_all_false r g H) in Hg. discriminate.
      * rewrite app_nth2 in Hg by exact Hge.
        destruct (g - length (runCleanup r))%nat as [| [| k]] eqn:Hk;
          simpl in Hg; try discriminate.
        f_equal. lia.
    + intros _. exact Hlong.
    + intros Hlt. lia.
Qed.

Lemma handler_routes (e : Event) (s : State) :
  waypointsChanged (handler e s) = false ->
  routes (commit (handler e s) s) = routes s.
Proof.
  handler_cases e; intros H; try reflexivity; discriminate.
Qed.

Lemma settledDown_dispatch (e : Event) (r : Runtime) :
  settledDown r -> settledDown (dispatch e r).
Proof.
  intros (Hone & Hcl & Hempty).
  assert (Hrender : forall us,
             (waypointsChanged us = false ->
              routes (commit us (app r)) = routes (app r)) ->
             settledDown (render us r)).
  { intros us Hr. unfold render.
    destruct (waypointsChanged us) eqn:Hch.
    - apply settledDown_routeEffect. exact Hone.
    - specialize (Hr eq_refl). repeat split; simpl.
      + exact Hone.
      + rewrite commit_waypoints_frame by exact Hch. exact Hcl.
      + rewrite commit_waypoints_frame by exact Hch. rewrite Hr. exact Hempty. }
  destruct e as [| x y m | k | k | | | | | | | | | | | x y | k | | | n o];
    match goal with
    | |- settledDown (dispatch (RouteResponse _ _) r) => simpl
    | |- settledDown (dispatch ?e r) =>
        exact (Hrender (handler e (app r)) (handler_routes e (app r)))
    end.
  unfold deliver.
  destruct (nth_error (requests r) n) as [q |]; [| repeat split; assumption].
  destruct (settled q); [repeat split; assumption |].
  destruct (resume q o) as [d | err]; [| repeat split; assumption].
  rewrite render_quiet by apply onRoutes_quiet. simpl.
  destruct (nth (guard q) (isMounted r) false) eqn:Hg.
  - repeat split; simpl; [exact Hone | exact Hcl |].
    intros Hlt. specialize (Hone _ Hg).
    assert (cleanup r <> None) as Hsome by congruence.
    specialize (Hcl Hsome). lia.
  - repeat split; assumption.
Qed.

Lemma settledDown_initial : settledDown initial.
Proof.
  apply settledDown_routeEffect. intros [| g]; discriminate.
Qed.

Lemma settledDown_run (es : list Event) (r : Runtime) :
  settledDown r -> settledDown (run es r).
Proof.
  revert r; induction es as [| e es IH]; intros r H; [exact H |].
  simpl. apply IH, settledDown_dispatch, H.
Qed.

(** C8.  When the waypoint array changes to fewer than two entries, the
    effect empties the routes in the same step and sends nothing:
    [fetchRoutes] itself answers such a sequence without the network, the
    list of issued requests is unchanged, and no request is current
    afterwards.  Hence in every state reached after mounting, fewer than
    two waypoints mean no routes. *)
Theorem short_sequence_clears_without_request
        (r : Runtime) (us : list SetState) :
  waypointsChanged us = true ->
  (length (waypoints (commit us (app r))) < 2)%nat ->
  let r' := render us r in
  routes (app r') = [] /\
  requests r' = requests r /\
  cleanup r' = None /\
  requested (fetchRoutes (waypoints (app r'))) = None /\
  (settledDown r -> forall n q, ~ live r' n q) /\
  (forall es,
      (length (waypoints (app (run es initial))) < 2)%nat ->
      routes (app (run es initial)) = []).
Proof.
  intros Hch Hlen r'. subst r'. rewrite render_waypoints.
  rewrite (render_effect us r Hch).
  set (ra := mkRuntime (commit us (app r)) (isMounted r) (requests r)
               (cleanup r)).
  rewrite (routeEffect_short ra Hlen). simpl.
  repeat split.
  - rewrite (fetchRoutes_short _ Hlen). reflexivity.
  - intros (Hone & _) n q (_ & _ & Hon). simpl in Hon.
    rewrite (runCleanup_all_false ra (guard q) Hone) in Hon. discriminate.
  - intros es Hshort.
    destruct (settledDown_run es initial settledDown_initial) as (_ & _ & H).
    apply H, Hshort.
Qed.

Lemma short_sequence_clears_without_request_witness :
  routes (app (render (deleteWaypoint 1) (render toAB initial))) = [] /\
  requests (render (deleteWaypoint 1) (render toAB initial))
    = requests (render toAB initial).
Proof.
  destruct (short_sequence_clears_without_request (render toAB initial)
              (deleteWaypoint 1)
              ltac:(vm_compute; reflexivity) ltac:(vm_compute; lia))
    as (H1 & H2 & _).
  split; [exact H1 | exact H2].
Defined.

(** C5, as stated, fails for [fetchRoute]: when the fetch is rejected, the
    promise resolves with the waypoints themselves, not with an empty
    list. *)
Lemma fetchRoute_falls_back_to_straight_line :
  failed Rejected /\
  settle (fetchRoute [pointA; pointB]) Rejected = Ok [pointA; pointB] /\
  settle (fetchRoute [pointA; pointB]) Rejected <> Ok [].
Proof.
  split; [exact I |]. split; [reflexivity |]. simpl. discriminate.
Qed.

(** C5, amended.  A failed request of [fetchRoutes] resolves with the
    empty list and never rejects; when its answer is applied, the routes
    are empty, the chosen route is 0 and loading is over.  The older
    [fetchRoute] resolves with the empty list when the answer carries no
    route, and with the waypoints (a straight line) when the fetch fails,
    the status is not a success or the body does not parse. *)
Theorem failed_request_resolves_empty
        (r : Runtime) (us : list SetState) (o : FetchOutcome) :
  waypointsChanged us = true ->
  (2 <= length (waypoints (commit us (app r))))%nat ->
  failed o ->
  let ws := waypoints (commit us (app r)) in
  let r1 := render us r in
  let r2 := deliver (length (requests r)) o r1 in
  settle (fetchRoutes ws) o = Ok [] /\
  routes (app r2) = [] /\
  selectedRouteIndex (app r2) = 0 /\
  isLoadingRoute (app r2) = false /\
  settle (fetchRoute ws) o = Ok (if raised o then ws else []).
Proof.
  intros Hch Hlen Hf ws r1 r2.
  pose proof (fetchRoutes_failed ws o Hf) as Hempty.
  destruct (render_issues us r Hch Hlen)
    as (q & _ & _ & Hres & Hlive & _).
  assert (Hd : resume q o = Ok []) by (rewrite Hres; exact Hempty).
  subst r2 r1. rewrite (deliver_live _ _ q o [] Hlive Hd).
  repeat split; try reflexivity; try assumption.
  apply fetchRoute_failed; assumption.
Qed.

Lemma failed_request_resolves_empty_witness :
  settle (fetchRoutes (waypoints (commit toAB (app initial)))) Rejected
    = Ok [] /\
  routes (app (deliver (length (requests initial)) Rejected
                 (render toAB initial))) = [].
Proof.
  destruct (failed_request_resolves_empty initial toAB Rejected
              ltac:(vm_compute; reflexivity) ltac:(vm_compute; lia) I)
    as (H1 & H2 & _).
  split; [exact H1 | exact H2].
Defined.

(** ** The simulated peer *)

Lemma findIndex_range {A : Type} (p : A -> bool) (l : list A) :
  -1 <= findIndex p l < Z.of_nat (length l).
Proof.
  induction l as [| x t IH]; simpl length; simpl findIndex; [lia |].
  destruct (p x); [lia |].
  destruct (Z.ltb_spec (findIndex p t) 0); lia.
Qed.

Lemma at_index_in_range {A : Type} (l : list A) (i : Z) :
  0 <= i < Z.of_nat (length l) -> exists x, at_index l i = Some x.
Proof.
  intros H. unfold at_index.
  destruct (Z.ltb_spec i 0); [lia |].
  destruct (nth_error l (Z.to_nat i)) as [x |] eqn:Hx; [eauto |].
  apply nth_error_None in Hx. lia.
Qed.

(** The read [alicePath[nextIndex]] of the interval callback is always in
    bounds. *)
Lemma nextIndex_in_path (loc : Location) :
  exists p,
    at_index alicePath
      (Z.rem (findIndex (sameSpot loc) alicePath + 1)
         (Z.of_nat (length alicePath))) = Some p.
Proof.
  apply at_index_in_range.
  pose proof (findIndex_range (sameSpot loc) alicePath) as H.
  apply Z.rem_bound_pos; simpl length in *; lia.
Qed.

Lemma moveAlice_unfold (fs : list Friend.t) :
  moveAlice fs =
  match alice fs with
  | None => fs
  | Some a =>
      match advance (Friend.location a) with
      | None => fs
      | Some l =>
          map (fun f => if Friend.id f =? 1 then withLocation f l else f) fs
      end
  end.
Proof.
  unfold moveAlice, alice, advance, pathLocation.
  destruct (find _ fs) as [a |]; [| reflexivity].
  destruct (at_index alicePath _); reflexivity.
Qed.

Lemma alice_relocated (l : Location) (fs : list Friend.t) :
  alice (map (fun f => if Friend.id f =? 1 then withLocation f l else f) fs)
  = option_map (fun a => withLocation a l) (alice fs).
Proof.
  unfold alice. induction fs as [| f fs IH]; [reflexivity |].
  simpl. destruct (Friend.id f =? 1) eqn:Hf; simpl; rewrite Hf; auto.
Qed.

(** After a tick the peer stands where [advance] says. *)
Lemma alice_moved (fs : list Friend.t) (a : Friend.t) :
  alice fs = Some a ->
  option_map Friend.location (alice (moveAlice fs))
  = advance (Friend.location a).
Proof.
  intros Ha. rewrite moveAlice_unfold, Ha.
  destruct (advance (Friend.location a)) as [l |] eqn:Hl.
  - rewrite alice_relocated, Ha. reflexivity.
  - exfalso. unfold advance, pathLocation in Hl.
    destruct (nextIndex_in_path (Friend.location a)) as (p & Hp).
    rewrite Hp in Hl. discriminate.
Qed.

(** Along the path: from entry [k] the peer goes to entry [k + 1]; the
    last entry repeats the coordinate of entry 0, so [findIndex] reads it
    as entry 0 and the peer goes on to entry 1. *)
Lemma advance_on_path (k : Z) (loc : Location) :
  0 <= k < 7 -> pathLocation k = Some loc ->
  advance loc = pathLocation ((k + 1) mod 6) /\
  findIndex (sameSpot loc) alicePath = k mod 6.
Proof.
  intros Hk Hloc.
  assert (Hcases : k = 0 \/ k = 1 \/ k = 2 \/ k = 3 \/ k = 4 \/ k = 5 \/ k = 6)
    by lia.
  repeat (destruct Hcases as [-> | Hcases]); try subst k;
    vm_compute in Hloc; injection Hloc as <-;
    split; vm_compute; reflexivity.
Qed.

Lemma pathLocation_wraps (k : Z) :
  0 <= k < 7 -> pathLocation (k mod 6) = pathLocation k.
Proof.
  intros Hk.
  assert (Hcases : k = 0 \/ k = 1 \/ k = 2 \/ k = 3 \/ k = 4 \/ k = 5 \/ k = 6)
    by lia.
  repeat (destruct Hcases as [-> | Hcases]); try subst k; reflexivity.
Qed.

Lemma pathLocation_defined (k : Z) :
  0 <= k < 7 -> exists loc, pathLocation k = Some loc.
Proof.
  intros Hk. unfold pathLocation.
  destruct (at_index_in_range alicePath k) as (p & ->); [simpl; lia |].
  eexists; reflexivity.
Qed.

Lemma run_ticks (N : nat) (r : Runtime) :
  friends (app (run (repeat Tick N) r)) = ticks N (friends (app r)).
Proof.
  revert r; induction N as [| N IH]; intros r; [reflexivity |].
  change (repeat Tick (S N)) with (Tick :: repeat Tick N).
  simpl run. rewrite IH. unfold ticks.
  rewrite Nat.iter_succ_r. reflexivity.
Qed.

(** C6, as stated, fails: the path has [L = 7] entries and Alice starts at
    entry [s = 0]; after [N = 7] ticks the claim puts her at entry
    [(0 + 7) mod 7 = 0], but she stands at entry 1. *)
Lemma seven_ticks_leave_alice_at_entry_one :
  Z.of_nat (length alicePath) = 7 /\
  option_map Friend.location (alice initialFriends) = pathLocation 0 /\
  positionIndex (friends (app (run (repeat Tick 7) initial))) = Some 1 /\
  positionIndex (friends (app (run (repeat Tick 7) initial)))
    <> Some ((0 + 7) mod 7) /\
  option_map Friend.location
    (alice (friends (app (run (repeat Tick 7) initial))))
    <> pathLocation ((0 + 7) mod 7).
Proof.
  repeat split; try (vm_compute; reflexivity).
  - vm_compute. discriminate.
  - intros H.
    pose proof (f_equal
                  (fun l => match l with
                            | Some loc => sameSpot loc pointA
                            | None => false
                            end) H) as Hb.
    vm_compute in Hb. discriminate.
Qed.

(** C6, amended.  [alicePath] has seven entries, the last repeating the
    first, and the position index is recomputed from the coordinate at
    each tick.  Starting from the coordinate of entry [s], after [N] ticks
    the peer's position index is [(s + N) mod 6] (the length less one) and
    its coordinate is the path entry at that index. *)
Theorem alice_position_after_ticks (r : Runtime) (s : Z) (N : nat) :
  0 <= s < Z.of_nat (length alicePath) ->
  option_map Friend.location (alice (friends (app r))) = pathLocation s ->
  let fs' := friends (app (run (repeat Tick N) r)) in
  let k := (s + Z.of_nat N) mod (Z.of_nat (length alicePath) - 1) in
  positionIndex fs' = Some k /\
  option_map Friend.location (alice fs') = pathLocation k.
Proof.
  change (Z.of_nat (length alicePath)) with 7. change (7 - 1) with 6.
  intros Hs Hstart fs' k. subst fs' k. rewrite run_ticks.
  set (fs := friends (app r)) in *.
  assert (Hloc : option_map Friend.location (alice (ticks N fs))
                 = pathLocation ((s + Z.of_nat N) mod 6)).
  { induction N as [| N IH].
    - simpl ticks. rewrite Z.add_0_r, pathLocation_wraps by exact Hs.
      exact Hstart.
    - unfold ticks in *. simpl Nat.iter.
      set (fsN := Nat.iter N moveAlice fs) in *.
      set (kN := (s + Z.of_nat N) mod 6) in *.
      assert (HkN : 0 <= kN < 6) by (apply Z.mod_pos_bound; lia).
      destruct (pathLocation_defined kN) as (loc & Hk); [lia |].
      rewrite Hk in IH.
      destruct (alice fsN) as [a |] eqn:Ha; [| discriminate].
      simpl in IH. injection IH as IH.
      rewrite (alice_moved fsN a Ha), IH.
      destruct (advance_on_path kN loc) as (Hadv & _); [lia | exact Hk |].
      rewrite Hadv. f_equal. subst kN.
      rewrite Nat2Z.inj_succ, Z.add_mod_idemp_l by lia.
      f_equal. lia. }
  split; [| exact Hloc].
  set (kN := (s + Z.of_nat N) mod 6) in *.
  assert (HkN : 0 <= kN < 6) by (apply Z.mod_pos_bound; lia).
  destruct (pathLocation_defined kN) as (loc & Hk); [lia |].
  rewrite Hk in Hloc. unfold positionIndex.
  destruct (alice (ticks N fs)) as [a |]; [| discriminate].
  cbn [option_map] in Hloc |- *. injection Hloc as ->.
  destruct (advance_on_path kN loc) as (_ & Hidx); [lia | exact Hk |].
  rewrite Hidx, Z.mod_small by lia. reflexivity.
Qed.

Lemma alice_position_after_ticks_witness :
  positionIndex (friends (app (run (repeat Tick 7) initial)))
    = Some ((0 + Z.of_nat 7) mod (Z.of_nat (length alicePath) - 1)) /\
  option_map Friend.location
    (alice (friends (app (run (repeat Tick 7) initial))))
    = pathLocation ((0 + Z.of_nat 7) mod (Z.of_nat (length alicePath) - 1)).
Proof.
  exact (alice_position_after_ticks initial 0 7
           ltac:(vm_compute; split; [discriminate | reflexivity])
           ltac:(vm_compute; reflexivity)).
Defined.

(** ** What a tick leaves alone *)

Lemma sameButLocation_refl (f : Friend.t) : sameButLocation f f.
Proof. repeat split. Qed.

Lemma moveAlice_frame (fs : list Friend.t) :
  Forall2 (fun f f' => sameButLocation f f' /\ (Friend.id f <> 1 -> f' = f))
    fs (moveAlice fs).
Proof.
  assert (Hrefl : forall l : list Friend.t,
             Forall2 (fun f f' => sameButLocation f f' /\
                                  (Friend.id f <> 1 -> f' = f)) l l).
  { induction l; constructor; auto using sameButLocation_refl. }
  rewrite moveAlice_unfold.
  destruct (alice fs); [| apply Hrefl].
  destruct (advance _) as [l |]; [| apply Hrefl].
  clear Hrefl. induction fs as [| f fs IH]; simpl; constructor; auto.
  destruct (Z.eqb_spec (Friend.id f) 1) as [H1 | H1].
  - split; [repeat split | intros Hne; contradiction].
  - split; [apply sameButLocation_refl | reflexivity].
Qed.

Lemma moveAlice_ids (fs : list Friend.t) :
  map Friend.id (moveAlice fs) = map Friend.id fs.
Proof.
  pose proof (moveAlice_frame fs) as H.
  induction H as [| f f' l l' ((Hid & _) & _) _ IH]; simpl; congruence.
Qed.

Lemma routeEffect_friends (r : Runtime) :
  friends (app (routeEffect r)) = friends (app r).
Proof.
  effect_cases r; reflexivity.
Qed.

Lemma render_friends (us : list SetState) (r : Runtime) :
  friends (app (render us r)) = friends (commit us (app r)).
Proof.
  unfold render. destruct (waypointsChanged us); [| reflexivity].
  rewrite routeEffect_friends. reflexivity.
Qed.

Lemma handler_friends (e : Event) (s : State) :
  friends (commit (handler e s) s) = friends s \/
  friends (commit (handler e s) s) = moveAlice (friends s).
Proof.
  handler_cases e; auto.
Qed.

Lemma dispatch_friends (e : Event) (r : Runtime) :
  friends (app (dispatch e r)) = friends (app r) \/
  friends (app (dispatch e r)) = moveAlice (friends (app r)).
Proof.
  destruct e as [| x y m | k | k | | | | | | | | | | | x y | k | | | n o];
    match goal with
    | |- context [dispatch (RouteResponse _ _) r] => simpl
    | |- context [dispatch ?e r] =>
        change (dispatch e r) with (render (handler e (app r)) r);
        rewrite render_friends; apply handler_friends
    end.
  left. unfold deliver.
  destruct (nth_error (requests r) n) as [q |]; [| reflexivity].
  destruct (settled q); [reflexivity |].
  destruct (resume q o); [| reflexivity].
  rewrite render_friends. simpl.
  destruct (nth (guard q) (isMounted r) false); reflexivity.
Qed.

Lemma run_ids (es : list Event) (r : Runtime) :
  map Friend.id (friends (app (run es r))) = map Friend.id (friends (app r)).
Proof.
  revert r; induction es as [| e es IH]; intros r; [reflexivity |].
  simpl. rewrite IH.
  destruct (dispatch_friends e r) as [-> | ->];
    [reflexivity | apply moveAlice_ids].
Qed.

(** C10.  A tick changes nothing but the location of the friends with id
    1: every other friend is the same record, every friend keeps its other
    fields, all other state variables and the pending requests are as
    before.  At every moment after mounting the friends are those with ids
    1 and 2, so exactly one peer moves. *)
Theorem tick_moves_only_alice (r : Runtime) :
  let r' := dispatch Tick r in
  Forall2 (fun f f' => sameButLocation f f' /\ (Friend.id f <> 1 -> f' = f))
    (friends (app r)) (friends (app r')) /\
  blips (app r') = blips (app r) /\
  waypoints (app r') = waypoints (app r) /\
  routes (app r') = routes (app r) /\
  selectedRouteIndex (app r') = selectedRouteIndex (app r) /\
  isLoadingRoute (app r') = isLoadingRoute (app r) /\
  selection (app r') = selection (app r) /\
  selectedWaypoint (app r') = selectedWaypoint (app r) /\
  selectedBlip (app r') = selectedBlip (app r) /\
  userLocation (app r') = userLocation (app r) /\
  isSidebarOpen (app r') = isSidebarOpen (app r) /\
  is3D (app r') = is3D (app r) /\
  isDrawing (app r') = isDrawing (app r) /\
  drawnPolygon (app r') = drawnPolygon (app r) /\
  isMounted r' = isMounted r /\
  requests r' = requests r /\
  cleanup r' = cleanup r /\
  (forall es, map Friend.id (friends (app (run es initial))) = [1; 2]).
Proof.
  intros r'. subst r'. simpl.
  split; [apply moveAlice_frame |].
  repeat split.
  intros es. rewrite run_ids. reflexivity.
Qed.

(** ** Deleting a waypoint *)

Lemma filterIdx_outside {A : Type} (i : Z) (l : list A) (from : Z) :
  i < from \/ from + Z.of_nat (length l) <= i ->
  filterIdx (fun _ idx => negb (idx =? i)) from l = l.
Proof.
  revert from; induction l as [| x t IH]; intros from H; [reflexivity |].
  simpl length in H. simpl.
  destruct (Z.eqb_spec from i) as [-> | Hne]; [lia |].
  simpl. f_equal. apply IH. lia.
Qed.

Lemma filterIdx_inside {A : Type} (i : Z) (l : list A) (from : Z) :
  from <= i < from + Z.of_nat (length l) ->
  filterIdx (fun _ idx => negb (idx =? i)) from l
  = firstn (Z.to_nat (i - from)) l ++ skipn (S (Z.to_nat (i - from))) l.
Proof.
  revert from; induction l as [| x t IH]; intros from H;
    simpl length in H; [lia |].
  simpl filterIdx.
  destruct (Z.eqb_spec from i) as [-> | Hne]; simpl negb; cbv iota.
  - rewrite Z.sub_diag. simpl. apply filterIdx_outside. lia.
  - rewrite IH by lia.
    replace (Z.to_nat (i - from)) with (S (Z.to_nat (i - (from + 1))))
      by lia.
    reflexivity.
Qed.

Lemma nth_error_without {A : Type} (k j : nat) (l : list A) :
  (k < length l)%nat ->
  nth_error (firstn k l ++ skipn (S k) l) j
  = if (j <? k)%nat then nth_error l j else nth_error l (S j).
Proof.
  revert k j; induction l as [| x t IH]; intros k j H; simpl in H; [lia |].
  destruct k as [| k]; [destruct j; reflexivity |].
  destruct j as [| j]; [reflexivity |].
  simpl firstn. simpl skipn. simpl app. simpl nth_error at 1 2.
  rewrite IH by lia. reflexivity.
Qed.

(** C3, as stated, fails: [deleteWaypoint(5)] on three waypoints, one of
    them selected, does not leave the state unchanged.  The waypoints are
    the same, but the waypoint selection is gone; and since the array is a
    new one, the effect runs again and sends a new request. *)
Lemma deleteWaypoint_out_of_range_changes_state :
  length (waypoints threeWaypoints) = 3%nat /\
  selectedWaypoint threeWaypoints
    = Some (mkWaypointSel 0 (fst pointA) (snd pointA)) /\
  selectedWaypoint (commit (deleteWaypoint 5) threeWaypoints) = None /\
  commit (deleteWaypoint 5) threeWaypoints <> threeWaypoints /\
  length (requests (render (deleteWaypoint 5)
                      (mkRuntime threeWaypoints [] [] None))) = 1%nat.
Proof.
  repeat split.
  intros H. apply (f_equal selectedWaypoint) in H. discriminate.
Qed.

(** C3, amended.  [deleteWaypoint(i)] reports nothing and has no range
    test.  With [i] outside [[0, n)] the waypoints are the same sequence;
    with [i] inside, entry [i] is removed and the entries after it move
    down by one.  In both cases the waypoint selection is reset,
    whichever waypoint it referred to, and, the array being a new one, the
    route effect runs again: with fewer than two waypoints left it empties
    the routes, with two or more it sets the loading flag and sends a
    request for the waypoints left.  The point selection, the selected
    point of interest and the state variables other than the waypoints,
    the waypoint selection, the routes and the loading flag stay.
    "Delete" in the popup is this call at the index of the selected
    waypoint. *)
Theorem deleteWaypoint_effect (r : Runtime) (i : Z) :
  let n := Z.of_nat (length (waypoints (app r))) in
  let r' := render (deleteWaypoint i) r in
  (i < 0 \/ n <= i -> waypoints (app r') = waypoints (app r)) /\
  (0 <= i < n ->
   Z.of_nat (length (waypoints (app r'))) = n - 1 /\
   forall j : nat,
     nth_error (waypoints (app r')) j
     = if Z.of_nat j <? i then nth_error (waypoints (app r)) j
       else nth_error (waypoints (app r)) (S j)) /\
  selectedWaypoint (app r') = None /\
  ((length (waypoints (app r')) < 2)%nat ->
   routes (app r') = [] /\
   isLoadingRoute (app r') = isLoadingRoute (app r) /\
   requests r' = requests r) /\
  ((2 <= length (waypoints (app r')))%nat ->
   routes (app r') = routes (app r) /\
   isLoadingRoute (app r') = true /\
   exists q, requests r' = requests r ++ [q] /\
             req_url q = mkUrl (waypoints (app r')) true) /\
  selection (app r') = selection (app r) /\
  selectedBlip (app r') = selectedBlip (app r) /\
  friends (app r') = friends (app r) /\
  blips (app r') = blips (app r) /\
  selectedRouteIndex (app r') = selectedRouteIndex (app r) /\
  userLocation (app r') = userLocation (app r) /\
  isSidebarOpen (app r') = isSidebarOpen (app r) /\
  is3D (app r') = is3D (app r) /\
  isDrawing (app r') = isDrawing (app r) /\
  drawnPolygon (app r') = drawnPolygon (app r) /\
  (forall w, selectedWaypoint (app r) = Some w -> index w = i ->
             dispatch DeleteWaypointClick r = r').
Proof.
  intros n r'. subst n r'.
  rewrite (render_effect (deleteWaypoint i) r eq_refl).
  set (ra := mkRuntime (commit (deleteWaypoint i) (app r)) (isMounted r)
               (requests r) (cleanup r)).
  assert (Hws : waypoints (app (routeEffect ra))
                = filterIdx (fun _ idx => negb (idx =? i)) 0
                    (waypoints (app r)))
    by (rewrite routeEffect_waypoints; reflexivity).
  split; [| split].
  - intros H. rewrite Hws. apply filterIdx_outside. lia.
  - intros H. rewrite Hws, filterIdx_inside by lia. rewrite Z.sub_0_r.
    assert (Hk : (Z.to_nat i < length (waypoints (app r)))%nat) by lia.
    split.
    + rewrite length_app, length_firstn, length_skipn. lia.
    + intros j. rewrite nth_error_without by exact Hk.
      destruct (Nat.ltb_spec j (Z.to_nat i)), (Z.ltb_spec (Z.of_nat j) i);
        try reflexivity; lia.
  - clear Hws. effect_cases ra; simpl in *.
    + split; [reflexivity |].
      split; [intros _; repeat split |].
      split; [intros H; lia |].
      repeat split.
      intros w Hw Hi. unfold dispatch, handler. rewrite Hw, Hi.
      rewrite (render_effect (deleteWaypoint i) r eq_refl).
      apply (routeEffect_short ra). exact Hshort.
    + split; [reflexivity |].
      split; [intros H; lia |].
      split; [intros _; repeat split; eexists; split; reflexivity |].
      repeat split.
      intros w Hw Hi. unfold dispatch, handler. rewrite Hw, Hi.
      rewrite (render_effect (deleteWaypoint i) r eq_refl).
      apply (routeEffect_long ra). exact Hlong.
Qed.

Lemma deleteWaypoint_effect_witness :
  waypoints (app (render (deleteWaypoint 5)
                    (mkRuntime threeWaypoints [] [] None)))
    = waypoints (app (mkRuntime threeWaypoints [] [] None)) /\
  nth_error
    (waypoints (app (render (deleteWaypoint 1)
                       (mkRuntime threeWaypoints [] [] None)))) 1
    = nth_error (waypoints (app (mkRuntime threeWaypoints [] [] None))) 2 /\
  selectedWaypoint
    (app (render (deleteWaypoint 1) (mkRuntime threeWaypoints [] [] None)))
    = None /\
  isLoadingRoute
    (app (render (deleteWaypoint 5) (mkRuntime threeWaypoints [] [] None)))
    = true.
Proof.
  destruct (deleteWaypoint_effect (mkRuntime threeWaypoints [] [] None) 5)
    as (Hout & _ & _ & _ & Hlong & _).
  destruct (deleteWaypoint_effect (mkRuntime threeWaypoints [] [] None) 1)
    as (_ & Hin & Hsel & _).
  split; [| split; [| split]].
  - apply Hout. right. vm_compute. discriminate.
  - destruct Hin as (_ & Hj);
      [vm_compute; split; [discriminate | reflexivity] |].
    exact (Hj 1%nat).
  - exact Hsel.
  - apply Hlong. vm_compute. lia.
Defined.

(** ** Drawing mode *)

(** C4, as stated, fails: a point selected on the map is still selected
    after drawing is switched on. *)
Lemma toggleDrawing_keeps_selection :
  isDrawing (app (run [MapClick (-122.40)%float 37.80%float false] initial))
    = false /\
  isDrawing
    (app (run [MapClick (-122.40)%float 37.80%float false; ToggleDrawing]
            initial)) = true /\
  selection
    (app (run [MapClick (-122.40)%float 37.80%float false; ToggleDrawing]
            initial)) <> None.
Proof.
  repeat split. vm_compute. discriminate.
Qed.

(** C4, amended.  [toggleDrawing] from Off empties the waypoints and the
    drawn area and switches drawing on; from On it switches drawing off and
    leaves the drawn area and the waypoints as they are.  In both
    directions the three selection variables are left as they are. *)
Theorem toggleDrawing_effect (s : State) :
  let s' := commit (toggleDrawing s) s in
  (isDrawing s = false ->
   waypoints s' = [] /\ drawnPolygon s' = [] /\ isDrawing s' = true) /\
  (isDrawing s = true ->
   drawnPolygon s' = drawnPolygon s /\ waypoints s' = waypoints s /\
   isDrawing s' = false) /\
  selection s' = selection s /\
  selectedWaypoint s' = selectedWaypoint s /\
  selectedBlip s' = selectedBlip s.
Proof.
  intros s'. subst s'. unfold toggleDrawing.
  destruct (isDrawing s) eqn:Hd; simpl; repeat split; intros; congruence.
Qed.

Lemma toggleDrawing_effect_witness :
  waypoints (commit (toggleDrawing threeWaypoints) threeWaypoints) = [] /\
  selectedWaypoint (commit (toggleDrawing threeWaypoints) threeWaypoints)
    = selectedWaypoint threeWaypoints.
Proof.
  destruct (toggleDrawing_effect threeWaypoints) as (Hoff & _ & _ & Hsel & _).
  destruct (Hoff eq_refl) as (Hw & _).
  split; [exact Hw | exact Hsel].
Defined.

(** ** Selection *)

(** A click on the map clears the other two selection variables. *)
Lemma handleMapClick_replaces (s : State) (x y : number) :
  isDrawing s = false ->
  let s' := commit (handleMapClick s x y false) s in
  selection s' = Some (mkLngLat x y) /\
  selectedWaypoint s' = None /\ selectedBlip s' = None /\
  activeSelections s' = 1%nat.
Proof.
  intros Hd s'. subst s'. unfold handleMapClick. rewrite Hd.
  repeat split.
Qed.

(** C2 at its failing input.  A click on the map at [(x, y)] followed by a
    click on the marker of the point of interest: the marker handler sets
    [selectedBlip] only, so the point is still selected and two selections
    are active.  With a waypoint placed and its marker clicked as well,
    all three are active. *)
Theorem marker_click_keeps_earlier_selection (x y : number) :
  selection (app (run [MapClick x y false; BlipMarkerClick 0] initial))
    = Some (mkLngLat x y) /\
  selectedBlip (app (run [MapClick x y false; BlipMarkerClick 0] initial))
    = nth_error (blips initialState) 0 /\
  activeSelections
    (app (run [MapClick x y false; BlipMarkerClick 0] initial)) = 2%nat /\
  activeSelections
    (app (run [MapClick x y false; AddWaypointClick; MapClick x y false;
               WaypointMarkerClick 0; BlipMarkerClick 0] initial)) = 3%nat.
Proof. repeat split. Qed.

(** ** The chosen route *)

(** C7 at its failing input.  Two waypoints, three alternatives received,
    the third chosen, then "Clear All Waypoints": the routes are emptied
    without the index being reset, and the index is out of bounds.  The
    same happens when the waypoint is deleted from its popup. *)
Theorem clearing_routes_keeps_index :
  indexInBounds
    (app (run (placeAB ++ [RouteResponse 0 threeRoutes; SelectRoute 2])
            initial)) /\
  routes
    (app (run (placeAB ++ [RouteResponse 0 threeRoutes; SelectRoute 2;
                           ClearAllWaypoints]) initial)) = [] /\
  selectedRouteIndex
    (app (run (placeAB ++ [RouteResponse 0 threeRoutes; SelectRoute 2;
                           ClearAllWaypoints]) initial)) = 2 /\
  ~ indexInBounds
      (app (run (placeAB ++ [RouteResponse 0 threeRoutes; SelectRoute 2;
                             ClearAllWaypoints]) initial)) /\
  ~ indexInBounds
      (app (run (placeAB ++ [RouteResponse 0 threeRoutes; SelectRoute 2;
                             WaypointMarkerClick 1; DeleteWaypointClick])
              initial)).
Proof.
  unfold indexInBounds. repeat split; try (vm_compute; congruence).
  - vm_compute. intros [_ H]. discriminate.
  - vm_compute. intros [_ H]. discriminate.
Qed.

(** An applied answer resets the index: the sibling path of the one
    above. *)
Lemma applied_answer_resets_index (r : Runtime) (n : nat) (q : Request)
      (o : FetchOutcome) (d : list RouteData) :
  live r n q -> resume q o = Ok d ->
  routes (app (deliver n o r)) = d /\
  selectedRouteIndex (app (deliver n o r)) = 0 /\
  isLoadingRoute (app (deliver n o r)) = false.
Proof.
  intros Hl Hd. rewrite (deliver_live r n q o d Hl Hd). repeat split.
Qed.

(** ** The loading flag *)

(** C9 at its failing input.  With two waypoints placed the request is
    outstanding and the flag is [true]; "Clear All Waypoints" (or "Draw
    Area") before the answer arrives leaves no request outstanding, yet
    the flag stays [true], also after the late answer.  When the answer
    arrives in time the flag goes from [true] to [false]. *)
Theorem loading_flag_stuck_after_clear :
  loadingTrace (placeAB ++ [RouteResponse 0 oneRoute])
    = [false; false; false; true; false] /\
  outstanding (run placeAB initial) = true /\
  isLoadingRoute (app (run placeAB initial)) = true /\
  outstanding (run (placeAB ++ [ClearAllWaypoints]) initial) = false /\
  isLoadingRoute (app (run (placeAB ++ [ClearAllWaypoints]) initial))
    = true /\
  outstanding
    (run (placeAB ++ [ClearAllWaypoints; RouteResponse 0 oneRoute]) initial)
    = false /\
  isLoadingRoute
    (app (run (placeAB ++ [ClearAllWaypoints; RouteResponse 0 oneRoute])
            initial)) = true /\
  loadingTrace (placeAB ++ [ToggleDrawing; RouteResponse 0 oneRoute])
    = [false; false; false; true; true; true].
Proof. repeat split. Qed.

(** * Further properties *)

(** ** Invariants of the event loop *)

Lemma run_app (es1 es2 : list Event) (r : Runtime) :
  run (es1 ++ es2) r = run es2 (run es1 r).
Proof. unfold run. apply fold_left_app. Qed.

Lemma render_handled (e : Event) (r : Runtime) :
  render (handler e (app r)) r =
  if waypointsChanged (handler e (app r)) then routeEffect (handled e r)
  else handled e r.
Proof. reflexivity. Qed.

(** The three ways an answer can end: nothing to do, the request marked as
    answered with the state variables as they were, or the routes
    applied. *)
Lemma deliver_cases (n : nat) (o : FetchOutcome) (r : Runtime) :
  deliver n o r = r \/
  exists q,
    nth_error (requests r) n = Some q /\ settled q = false /\
    (deliver n o r =
     mkRuntime (app r) (isMounted r) (setNth n (answered q) (requests r))
       (cleanup r) \/
     (nth (guard q) (isMounted r) false = true /\
      exists d,
        resume q o = Ok d /\
        deliver n o r =
        mkRuntime
          (commit [setRoutes d; setSelectedRouteIndex 0;
                   setIsLoadingRoute false] (app r))
          (isMounted r) (setNth n (answered q) (requests r)) (cleanup r))).
Proof.
  unfold deliver.
  destruct (nth_error (requests r) n) as [q |] eqn:Hq; [| left; reflexivity].
  destruct (settled q) eqn:Hs; [left; reflexivity |].
  right. exists q. split; [reflexivity | split; [exact Hs |]].
  destruct (resume q o) as [d | err] eqn:Hd; [| left; reflexivity].
  rewrite render_quiet by apply onRoutes_quiet.
  destruct (nth (guard q) (isMounted r) false) eqn:Hg.
  - right. split; [reflexivity |]. exists d. split; reflexivity.
  - left. reflexivity.
Qed.

(** A property kept by the batch of every handler, by the effect and by
    every answer is kept by every event. *)
Lemma invariant_dispatch (I : Runtime -> Prop) :
  (forall e r, I r -> I (handled e r)) ->
  (forall r, I r -> I (routeEffect r)) ->
  (forall n o r, I r -> I (deliver n o r)) ->
  forall e r, I r -> I (dispatch e r).
Proof.
  intros Hh He Hd e r Hr.
  destruct e as [| x y m | k | k | | | | | | | | | | | x y | k | | | n o];
    match goal with
    | |- I (dispatch (RouteResponse _ _) r) => apply Hd, Hr
    | |- I (dispatch ?e r) =>
        change (dispatch e r) with (render (handler e (app r)) r);
        rewrite render_handled;
        destruct (waypointsChanged (handler e (app r)));
        [apply He |]; apply Hh, Hr
    end.
Qed.

Lemma invariant_run (I : Runtime -> Prop) :
  (forall e r, I r -> I (dispatch e r)) ->
  forall es r, I r -> I (run es r).
Proof.
  intros Hstep es. induction es as [| e es IH]; intros r Hr; [exact Hr |].
  simpl. apply IH, Hstep, Hr.
Qed.

Lemma nth_error_setNth {A : Type} (n m : nat) (v x : A) (l : list A) :
  nth_error (setNth n v l) m = Some x ->
  (m = n /\ x = v) \/ (m <> n /\ nth_error l m = Some x).
Proof.
  intros H. destruct (Nat.eq_dec m n) as [-> | Hne].
  - left. split; [reflexivity |].
    destruct (nth_error l n) as [y |] eqn:Hy.
    + rewrite (nth_error_setNth_same n v y l Hy) in H. congruence.
    + apply nth_error_None in Hy.
      assert (Hnone : nth_error (setNth n v l) n = None)
        by (apply nth_error_None; rewrite setNth_length; exact Hy).
      congruence.
  - right. split; [exact Hne |].
    rewrite nth_error_setNth_other in H by congruence. exact H.
Qed.

Lemma nth_error_snoc {A : Type} (l : list A) (x y : A) (n : nat) :
  nth_error (l ++ [x]) n = Some y ->
  nth_error l n = Some y \/ (n = length l /\ y = x).
Proof.
  intros H. destruct (Nat.lt_ge_cases n (length l)) as [Hlt | Hge].
  - left. rewrite nth_error_app1 in H by exact Hlt. exact H.
  - right. rewrite nth_error_app2 in H by exact Hge.
    destruct (n - length l)%nat as [| k] eqn:Hk; simpl in H.
    + split; [lia | congruence].
    + destruct k; discriminate.
Qed.

(** *** Requests are well formed *)

Lemma wellFormed_dispatch (e : Event) (r : Runtime) :
  Forall wellFormedRequest (requests r) ->
  Forall wellFormedRequest (requests (dispatch e r)).
Proof.
  apply (invariant_dispatch
           (fun r => Forall wellFormedRequest (requests r))); clear e r.
  - intros e r H. exact H.
  - intros r H. effect_cases r; simpl; [exact H |].
    apply Forall_app. split; [exact H |].
    constructor; [| constructor]. split; [reflexivity | exact Hlong].
  - intros n o r H.
    destruct (deliver_cases n o r) as [-> | (q & Hq & _ & Hcase)];
      [exact H |].
    assert (Hset : Forall wellFormedRequest
                     (setNth n (answered q) (requests r))).
    { apply Forall_forall. intros x Hx.
      apply In_nth_error in Hx as (m & Hm).
      apply nth_error_setNth in Hm as [(_ & ->) | (_ & Hm)].
      - apply nth_error_In in Hq.
        exact (proj1 (Forall_forall _ _) H q Hq).
      - apply nth_error_In in Hm.
        exact (proj1 (Forall_forall _ _) H x Hm). }
    destruct Hcase as [-> | (_ & d & _ & ->)]; exact Hset.
Qed.

(** X1.  Every request that the application ever sends asks for
    alternatives and carries at least two coordinates. *)
Theorem every_request_has_two_coordinates (es : list Event) :
  Forall wellFormedRequest (requests (run es initial)).
Proof.
  apply (invariant_run (fun r => Forall wellFormedRequest (requests r))).
  - intros e r. apply wellFormed_dispatch.
  - constructor.
Qed.

(** *** At most one current request *)

Lemma freshGuards_dispatch (e : Event) (r : Runtime) :
  freshGuards r -> freshGuards (dispatch e r).
Proof.
  apply (invariant_dispatch freshGuards); clear e r.
  - intros e r H. exact H.
  - intros r (Hlt & Hinj). pose proof (runCleanup_length r) as Hlen.
    effect_cases r; split; simpl.
    + intros n q Hq. rewrite Hlen. eauto.
    + exact Hinj.
    + intros n q Hq. rewrite length_app, Hlen. simpl.
      apply nth_error_snoc in Hq as [Hq | (_ & ->)].
      * specialize (Hlt n q Hq). lia.
      * simpl. lia.
    + intros n m q q' Hq Hq' Hg.
      apply nth_error_snoc in Hq as [Hq | (Hn & ->)];
        apply nth_error_snoc in Hq' as [Hq' | (Hm & ->)].
      * eauto.
      * simpl in Hg. specialize (Hlt n q Hq). lia.
      * simpl in Hg. specialize (Hlt m q' Hq'). lia.
      * congruence.
  - intros n o r (Hlt & Hinj).
    destruct (deliver_cases n o r) as [-> | (q & Hq & _ & Hcase)];
      [split; assumption |].
    assert (Hset : freshGuards
                     (mkRuntime (app r) (isMounted r)
                        (setNth n (answered q) (requests r)) (cleanup r))).
    { split; simpl.
      - intros m x Hx.
        apply nth_error_setNth in Hx as [(_ & ->) | (_ & Hx)]; simpl; eauto.
      - intros m1 m2 x1 x2 H1 H2 Hg.
        apply nth_error_setNth in H1 as [(-> & ->) | (Hne1 & H1)];
          apply nth_error_setNth in H2 as [(-> & ->) | (Hne2 & H2)];
          simpl in Hg; eauto. }
    destruct Hcase as [-> | (_ & d & _ & ->)]; exact Hset.
Qed.

Lemma freshGuards_run (es : list Event) : freshGuards (run es initial).
Proof.
  apply (invariant_run freshGuards).
  - intros e r. apply freshGuards_dispatch.
  - split; simpl.
    + intros [| n] q H; discriminate.
    + intros [| n] m q q' H; discriminate.
Qed.

(** X2.  At every moment at most one request is current: two requests
    whose answers would both still be applied are the same request. *)
Theorem at_most_one_current_request
        (es : list Event) (n m : nat) (q q' : Request) :
  live (run es initial) n q -> live (run es initial) m q' -> n = m.
Proof.
  intros (Hq & _ & Hon) (Hq' & _ & Hon').
  destruct (settledDown_run es initial settledDown_initial) as (Hone & _).
  destruct (freshGuards_run es) as (_ & Hinj).
  apply (Hinj n m q q' Hq Hq').
  pose proof (Hone _ Hon) as H1. pose proof (Hone _ Hon') as H2.
  congruence.
Qed.

Lemma at_most_one_current_request_witness :
  live (run placeAB initial) 0 requestAB /\ 0%nat = 0%nat.
Proof.
  assert (H : live (run placeAB initial) 0 requestAB)
    by (repeat split; vm_compute; reflexivity).
  split; [exact H |].
  exact (at_most_one_current_request placeAB 0 0 requestAB requestAB H H).
Defined.

(** *** The loading flag while a request is current *)

Lemma handler_loading (e : Event) (s : State) :
  isLoadingRoute (commit (handler e s) s) = isLoadingRoute s.
Proof. handler_cases e; reflexivity. Qed.

Lemma outstanding_live (r : Runtime) :
  outstanding r = true <-> exists n q, live r n q.
Proof.
  unfold outstanding, live. rewrite existsb_exists. split.
  - intros (q & Hin & Hq). apply andb_prop in Hq as (Hs & Hon).
    apply In_nth_error in Hin as (n & Hn).
    exists n, q. repeat split; [exact Hn | | exact Hon].
    destruct (settled q); [discriminate | reflexivity].
  - intros (n & q & Hn & Hs & Hon). exists q.
    split; [eapply nth_error_In; eassumption |].
    rewrite Hs, Hon. reflexivity.
Qed.

Lemma dispatch_shape (e : Event) (r : Runtime) :
  (exists n o, dispatch e r = deliver n o r) \/
  (waypointsChanged (handler e (app r)) = false /\
   dispatch e r = handled e r) \/
  (waypointsChanged (handler e (app r)) = true /\
   dispatch e r = routeEffect (handled e r)).
Proof.
  destruct e as [| x y m | k | k | | | | | | | | | | | x y | k | | | n o];
    match goal with
    | |- context [dispatch (RouteResponse ?n ?o) r] =>
        left; exists n, o; reflexivity
    | |- context [dispatch ?e r] =>
        right;
        change (dispatch e r) with (render (handler e (app r)) r);
        rewrite render_handled;
        destruct (waypointsChanged (handler e (app r)));
        [right | left]; split; reflexivity
    end.
Qed.

Lemma spinnerOn_dispatch (e : Event) (r : Runtime) :
  settledDown r -> freshGuards r -> spinnerOn r ->
  spinnerOn (dispatch e r).
Proof.
  intros (Hone & _) (_ & Hinj) Hspin.
  destruct (dispatch_shape e r) as [(n & o & ->) | [(_ & ->) | (_ & ->)]].
  - destruct (deliver_cases n o r) as [-> | (q & Hq & Hs & Hcase)];
      [exact Hspin |].
    destruct Hcase as [-> | (Hon & d & _ & ->)].
    + intros (m & x & Hx & Hxs & Hxon). simpl in *. apply Hspin.
      apply nth_error_setNth in Hx as [(_ & ->) | (_ & Hx)];
        [discriminate |].
      exists m, x. repeat split; assumption.
    + intros (m & x & Hx & Hxs & Hxon). simpl in *. exfalso.
      apply nth_error_setNth in Hx as [(_ & ->) | (Hne & Hx)];
        [discriminate |].
      apply Hne. apply (Hinj m n x q Hx Hq).
      pose proof (Hone _ Hon) as H1. pose proof (Hone _ Hxon) as H2.
      congruence.
  - intros (m & x & Hx). unfold handled. simpl.
    rewrite handler_loading. apply Hspin. exists m, x. exact Hx.
  - set (ra := handled e r).
    assert (Hone' : forall g, nth g (isMounted ra) false = true ->
                              cleanup ra = Some g) by exact Hone.
    effect_cases ra.
    + intros (m & x & _ & _ & Hxon). simpl in Hxon.
      rewrite (runCleanup_all_false ra _ Hone') in Hxon. discriminate.
    + intros _. reflexivity.
Qed.

Lemma spinnerOn_run (es : list Event) : spinnerOn (run es initial).
Proof.
  assert (H : settledDown (run es initial) /\ freshGuards (run es initial)
              /\ spinnerOn (run es initial)).
  { apply (invariant_run
             (fun r => settledDown r /\ freshGuards r /\ spinnerOn r)).
    - intros e r (H1 & H2 & H3). split; [| split].
      + apply settledDown_dispatch, H1.
      + apply freshGuards_dispatch, H2.
      + apply spinnerOn_dispatch; assumption.
    - split; [apply settledDown_initial | split].
      + split; simpl.
        * intros [| n] q H; discriminate.
        * intros [| n] m q q' H; discriminate.
      + intros (n & q & H & _). destruct n; discriminate. }
  apply H.
Qed.

(** X3.  Whenever a request for the current waypoints is outstanding, the
    loading flag is set. *)
Theorem outstanding_request_shows_loading (es : list Event) :
  outstanding (run es initial) = true ->
  isLoadingRoute (app (run es initial)) = true.
Proof.
  intros H. apply spinnerOn_run, outstanding_live, H.
Qed.

Lemma outstanding_request_shows_loading_witness :
  isLoadingRoute (app (run placeAB initial)) = true.
Proof.
  exact (outstanding_request_shows_loading placeAB
           ltac:(vm_compute; reflexivity)).
Defined.

(** *** The chosen route *)

Lemma handler_index (e : Event) (s : State) :
  indexOK s -> indexOK (commit (handler e s) s).
Proof.
  intros (Hpos & Hlt).
  destruct e as [| x y m | k | k | | | | | | | | | | | x y | k | | | n o];
    simpl;
    unfold handleMapClick, addWaypoint, deleteWaypoint, routeToBlip,
      toggleDrawing, toggle3D;
    try (destruct (Nat.ltb_spec k (length (routes s))));
    repeat match goal with
           | |- context [match ?x with _ => _ end] => destruct x
           end;
    split; simpl;
    first [assumption | lia | intros H; congruence].
Qed.

Lemma index_dispatch (e : Event) (r : Runtime) :
  indexOK (app r) -> indexOK (app (dispatch e r)).
Proof.
  apply (invariant_dispatch (fun r => indexOK (app r))); clear e r.
  - intros e r H. apply handler_index, H.
  - intros r (Hpos & Hlt). effect_cases r; split; simpl;
      first [assumption | intros H; congruence].
  - intros n o r (Hpos & Hlt).
    destruct (deliver_cases n o r)
      as [-> | (q & _ & _ & [-> | (_ & d & _ & ->)])];
      try (split; assumption).
    split; simpl; [lia |]. destruct d; [congruence | simpl; lia].
Qed.

(** X4.  In every state reached after mounting the chosen route index is
    not negative, and whenever there are routes it names one of them. *)
Theorem chosen_route_exists (es : list Event) :
  0 <= selectedRouteIndex (app (run es initial)) /\
  (routes (app (run es initial)) <> [] ->
   indexInBounds (app (run es initial))).
Proof.
  assert (H : indexOK (app (run es initial))).
  { apply (invariant_run (fun r => indexOK (app r))).
    - intros e r. apply index_dispatch.
    - split; simpl; [lia | congruence]. }
  destruct H as (Hpos & Hlt). split; [exact Hpos |].
  intros Hne. specialize (Hlt Hne). unfold indexInBounds. lia.
Qed.

(** ** Placing waypoints *)

Lemma mapClick_selects (r : Runtime) (x y : number) :
  isDrawing (app r) = false ->
  dispatch (MapClick x y false) r =
  mkRuntime
    (commit [setSelection (Some (mkLngLat x y)); setSelectedWaypoint None;
             setSelectedBlip None] (app r))
    (isMounted r) (requests r) (cleanup r).
Proof.
  intros Hd. unfold dispatch, handler, handleMapClick. rewrite Hd.
  reflexivity.
Qed.

Lemma routeEffect_isDrawing (r : Runtime) :
  isDrawing (app (routeEffect r)) = isDrawing (app r).
Proof. effect_cases r; reflexivity. Qed.

Lemma routeEffect_selection (r : Runtime) :
  selection (app (routeEffect r)) = selection (app r) /\
  selectedWaypoint (app (routeEffect r)) = selectedWaypoint (app r) /\
  selectedBlip (app (routeEffect r)) = selectedBlip (app r).
Proof. effect_cases r; repeat split. Qed.

Lemma place_step (r : Runtime) (p : Coord) :
  isDrawing (app r) = false ->
  waypoints (app (run (place p) r)) = waypoints (app r) ++ [p] /\
  isDrawing (app (run (place p) r)) = false /\
  selection (app (run (place p) r)) = None /\
  ((2 <= length (waypoints (app r) ++ [p]))%nat ->
   exists q,
     req_url q = mkUrl (waypoints (app r) ++ [p]) true /\
     live (run (place p) r) (length (requests r)) q).
Proof.
  intros Hd. destruct p as [x y].
  change (run (place (x, y)) r)
    with (dispatch AddWaypointClick (dispatch (MapClick x y false) r)).
  rewrite (mapClick_selects r x y Hd).
  set (r1 := mkRuntime _ (isMounted r) (requests r) (cleanup r)).
  change (dispatch AddWaypointClick r1)
    with (render [setWaypoints (fun w => w ++ [(x, y)]); setSelection None]
            r1).
  set (us := [setWaypoints (fun w => w ++ [(x, y)]); setSelection None]).
  split; [rewrite render_waypoints; reflexivity |].
  rewrite (render_effect us r1 eq_refl).
  split; [rewrite routeEffect_isDrawing; exact Hd |].
  split; [rewrite (proj1 (routeEffect_selection _)); reflexivity |].
  intros Hlen.
  destruct (render_issues us r1 eq_refl Hlen)
    as (q & _ & Hurl & _ & Hlive & _).
  rewrite (render_effect us r1 eq_refl) in Hlive.
  exists q. split; [exact Hurl | exact Hlive].
Qed.

(** X5.  Placing the points [pts] one after the other (a click on the map
    and "Add Waypoint" for each) while drawing is off appends them to the
    waypoints in the order placed.  Afterwards nothing is selected, and if
    the sequence has two or more entries the current request asks for
    exactly that sequence. *)
Theorem placing_appends_in_order (r : Runtime) (pts : list Coord) :
  isDrawing (app r) = false ->
  waypoints (app (run (flat_map place pts) r)) = waypoints (app r) ++ pts /\
  isDrawing (app (run (flat_map place pts) r)) = false /\
  (pts <> [] ->
   selection (app (run (flat_map place pts) r)) = None /\
   ((2 <= length (waypoints (app r) ++ pts))%nat ->
    exists n q,
      live (run (flat_map place pts) r) n q /\
      req_url q = mkUrl (waypoints (app r) ++ pts) true)).
Proof.
  intros Hd. induction pts as [| p pts IH] using rev_ind.
  - simpl. rewrite app_nil_r.
    split; [reflexivity | split; [exact Hd | congruence]].
  - destruct IH as (Hw & Hdraw & _).
    rewrite flat_map_app, run_app.
    assert (flat_map place [p] = place p) as ->
        by (cbn [flat_map]; apply app_nil_r).
    set (rl := run (flat_map place pts) r) in *.
    destruct (place_step rl p Hdraw) as (Hw' & Hd' & Hsel & Hreq).
    rewrite Hw in Hw', Hreq. rewrite <- app_assoc in Hw', Hreq.
    split; [exact Hw' |]. split; [exact Hd' |].
    intros _. split; [exact Hsel |].
    intros Hlen. destruct (Hreq Hlen) as (q & Hurl & Hlive).
    exists (length (requests rl)), q. split; [exact Hlive | exact Hurl].
Qed.

Lemma placing_appends_in_order_witness :
  waypoints (app (run (flat_map place [pointA; pointB; pointC]) initial))
  = waypoints (app initial) ++ [pointA; pointB; pointC].
Proof.
  exact (proj1 (placing_appends_in_order initial [pointA; pointB; pointC]
                  ltac:(vm_compute; reflexivity))).
Defined.

(** ** Routing to a point of interest *)

(** X7.  "Route from my location" with a location known and a point of
    interest selected replaces the waypoints by the location followed by
    the point of interest, deselects the point of interest and sends the
    request for these two; with no location known it does nothing. *)
Theorem routeToBlip_effect (r : Runtime) :
  (forall here b,
      userLocation (app r) = Some here ->
      selectedBlip (app r) = Some b ->
      let r' := dispatch RouteToBlipClick r in
      waypoints (app r') = [here; (Blip.longitude b, Blip.latitude b)] /\
      selectedBlip (app r') = None /\
      isLoadingRoute (app r') = true /\
      exists q,
        requests r' = requests r ++ [q] /\
        req_url q
        = mkUrl [here; (Blip.longitude b, Blip.latitude b)] true /\
        live r' (length (requests r)) q) /\
  (userLocation (app r) = None -> dispatch RouteToBlipClick r = r).
Proof.
  split.
  - intros here b Hu Hb r'. subst r'.
    unfold dispatch, handler, routeToBlip. rewrite Hu, Hb.
    set (us := [setWaypoints _; setSelectedBlip None]).
    destruct (render_issues us r eq_refl (le_n 2))
      as (q & Hreq & Hurl & _ & Hlive & _ & _ & _ & Happ).
    rewrite Happ. simpl in Hurl. repeat split.
    exists q. repeat split; first [assumption | apply Hlive].
  - intros Hu. unfold dispatch, handler, routeToBlip. rewrite Hu.
    destruct r as [? ? ? ?]. reflexivity.
Qed.

Lemma routeToBlip_effect_witness :
  waypoints
    (app (dispatch RouteToBlipClick
            (run [Located (fst pointA) (snd pointA); BlipMarkerClick 0]
               initial)))
  = [pointA; ((-122.45)%float, 37.77%float)].
Proof.
  exact (proj1
           (proj1 (routeToBlip_effect
                     (run [Located (fst pointA) (snd pointA);
                           BlipMarkerClick 0] initial))
              pointA
              (Blip.mk 1 (-122.45)%float 37.77%float "Cool graffiti")
              ltac:(vm_compute; reflexivity)
              ltac:(vm_compute; reflexivity))).
Defined.

(** ** Deleting from the popup *)

(** X8.  A click on the marker of waypoint [i] followed by "Delete" in its
    popup removes exactly that waypoint: the others keep their order, and
    no waypoint is selected afterwards. *)
Theorem popup_delete_removes_clicked_waypoint
        (r : Runtime) (i : nat) (wp : Coord) :
  nth_error (waypoints (app r)) i = Some wp ->
  let r' := run [WaypointMarkerClick i; DeleteWaypointClick] r in
  waypoints (app r')
  = firstn i (waypoints (app r)) ++ skipn (S i) (waypoints (app r)) /\
  selectedWaypoint (app r') = None.
Proof.
  intros Hwp r'. subst r'.
  change (run [WaypointMarkerClick i; DeleteWaypointClick] r)
    with (dispatch DeleteWaypointClick (dispatch (WaypointMarkerClick i) r)).
  assert (H1 : dispatch (WaypointMarkerClick i) r =
               mkRuntime
                 (commit [setSelectedWaypoint
                            (Some (mkWaypointSel (Z.of_nat i) (fst wp)
                                     (snd wp)))] (app r))
                 (isMounted r) (requests r) (cleanup r)).
  { unfold dispatch, handler. rewrite Hwp. reflexivity. }
  rewrite H1.
  set (r1 := mkRuntime _ (isMounted r) (requests r) (cleanup r)).
  change (dispatch DeleteWaypointClick r1)
    with (render (deleteWaypoint (Z.of_nat i)) r1).
  rewrite render_waypoints.
  rewrite (render_effect (deleteWaypoint (Z.of_nat i)) r1 eq_refl).
  split; [| rewrite (proj1 (proj2 (routeEffect_selection _))); reflexivity].
  simpl. rewrite filterIdx_inside.
  - rewrite Z.sub_0_r, Nat2Z.id. reflexivity.
  - assert (i < length (waypoints (app r)))%nat
      by (apply nth_error_Some; congruence).
    lia.
Qed.

Lemma popup_delete_removes_clicked_waypoint_witness :
  waypoints
    (app (run [WaypointMarkerClick 0; DeleteWaypointClick]
            (run placeAB initial)))
  = firstn 0 (waypoints (app (run placeAB initial)))
    ++ skipn 1 (waypoints (app (run placeAB initial))).
Proof.
  exact (proj1 (popup_delete_removes_clicked_waypoint (run placeAB initial)
                  0 pointA ltac:(vm_compute; reflexivity))).
Defined.

(** ** Successful answers *)

Lemma mapM_routes (gs : list (list Coord * number * number)) :
  mapM (fun r => cs <- geometryCoordinates r ;;
                 Ok (mkRouteData cs (osrm_duration r) (osrm_distance r)))
    (map osrmRoute gs)
  = Ok (map routeData gs).
Proof.
  induction gs as [| g gs IH]; [reflexivity |].
  simpl. rewrite IH. reflexivity.
Qed.

(** X9.  From a successful answer [fetchRoutes] keeps every alternative,
    in the order received, each with its geometry, duration and
    distance. *)
Theorem fetchRoutes_keeps_all_alternatives
        (ws : list Coord) (st : Z) (gs : list (list Coord * number * number)) :
  (2 <= length ws)%nat ->
  settle (fetchRoutes ws) (okResponse st (map osrmRoute gs))
  = Ok (map routeData gs).
Proof.
  intros Hlen. unfold fetchRoutes.
  destruct (Nat.ltb_spec (length ws) 2) as [Hlt | _]; [lia |].
  simpl. rewrite mapM_routes. reflexivity.
Qed.

Lemma fetchRoutes_keeps_all_alternatives_witness :
  settle (fetchRoutes [pointA; pointB])
    (okResponse 200
       (map osrmRoute [([pointA; pointB], 600%float, 5000%float)]))
  = Ok (map routeData [([pointA; pointB], 600%float, 5000%float)]).
Proof.
  exact (fetchRoutes_keeps_all_alternatives [pointA; pointB] 200
           [([pointA; pointB], 600%float, 5000%float)] (le_n 2)).
Defined.

Lemma mapM_throws (rs : list OsrmRoute) (r : OsrmRoute) :
  In r rs -> geometry r = None ->
  mapM (fun r => cs <- geometryCoordinates r ;;
                 Ok (mkRouteData cs (osrm_duration r) (osrm_distance r))) rs
  = Throw TypeError.
Proof.
  intros Hin Hg. induction rs as [| x rs IH]; [contradiction |].
  simpl. unfold geometryCoordinates at 1.
  destruct (geometry x) as [cs |] eqn:Hx; [| reflexivity].
  simpl. destruct Hin as [-> | Hin]; [congruence |].
  rewrite (IH Hin). reflexivity.
Qed.

(** X10.  One route object without a geometry among the routes of a
    successful answer makes [fetchRoutes] resolve with no route at all. *)
Theorem fetchRoutes_all_or_nothing
        (ws : list Coord) (st : Z) (rs : list OsrmRoute) (r : OsrmRoute) :
  In r rs -> geometry r = None ->
  settle (fetchRoutes ws) (okResponse st rs) = Ok [].
Proof.
  intros Hin Hg. unfold fetchRoutes.
  destruct (length ws <? 2)%nat; [reflexivity |].
  simpl. rewrite (mapM_throws rs r Hin Hg). reflexivity.
Qed.

Lemma fetchRoutes_all_or_nothing_witness :
  settle (fetchRoutes [pointA; pointB])
    (okResponse 200
       [routeVia [pointA; pointB] 600%float 5000%float;
        mkOsrmRoute None 700%float 5600%float])
  = Ok [].
Proof.
  exact (fetchRoutes_all_or_nothing [pointA; pointB] 200
           [routeVia [pointA; pointB] 600%float 5000%float;
            mkOsrmRoute None 700%float 5600%float]
           (mkOsrmRoute None 700%float 5600%float)
           (or_intror (or_introl eq_refl)) eq_refl).
Defined.

(** ** Edge cases of the tick *)

(** X11.  A tick leaves the friends as they are when none has id 1; and a
    peer with id 1 whose coordinate is not on the path is put on entry 0
    of the path. *)
Theorem tick_off_the_path (fs : list Friend.t) :
  (alice fs = None -> moveAlice fs = fs) /\
  (positionIndex fs = Some (-1) ->
   option_map Friend.location (alice (moveAlice fs)) = pathLocation 0).
Proof.
  split.
  - intros H. rewrite moveAlice_unfold, H. reflexivity.
  - unfold positionIndex. destruct (alice fs) as [a |] eqn:Ha;
      [| discriminate].
    cbn [option_map]. intros H.
    assert (H' : findIndex (sameSpot (Friend.location a)) alicePath = -1)
      by congruence.
    rewrite (alice_moved fs a Ha). unfold advance. rewrite H'. reflexivity.
Qed.

Lemma tick_off_the_path_witness :
  option_map Friend.location
    (alice (moveAlice
              [Friend.mk 1 "Alice" "" "online" "" 0
                 (mkLocation 0%float 0%float)]))
  = pathLocation 0.
Proof.
  exact (proj2 (tick_off_the_path
                  [Friend.mk 1 "Alice" "" "online" "" 0
                     (mkLocation 0%float 0%float)])
           ltac:(vm_compute; reflexivity)).
Defined.

(** ** The drawn-area layer *)

Lemma layerAfter_snoc (ds : list (list Coord)) (d : list Coord) :
  layerAfter (ds ++ [d]) = drawnPolygonLayer true d (layerAfter ds).
Proof. unfold layerAfter. rewrite fold_left_app. reflexivity. Qed.

Lemma layerAfter_defined (d0 : list Coord) (ds : list (list Coord)) :
  exists rings, layerAfter (d0 :: ds) = Some rings.
Proof.
  induction ds as [| d ds IH] using rev_ind; [eexists; reflexivity |].
  destruct IH as (rings & H).
  change (d0 :: ds ++ [d]) with ((d0 :: ds) ++ [d]).
  rewrite layerAfter_snoc, H. eexists; reflexivity.
Qed.

(** X12.  The polygon shown for the drawn area: with more than two
    vertices it is one ring, the vertices in order followed by the first
    one again; with two or fewer it is the vertices as they are.  The
    first run of the layer's effect only creates the source, with no
    coordinates; after every later run the source holds the polygon of the
    current drawn area. *)
Theorem drawn_area_polygon (d : list Coord) :
  ((2 < length d)%nat ->
   exists p0, hd_error d = Some p0 /\ polyCoords d = [d ++ [p0]]) /\
  ((length d <= 2)%nat -> polyCoords d = [d]) /\
  layerAfter [d] = Some [] /\
  (forall d0 ds, layerAfter (d0 :: ds ++ [d]) = Some (polyCoords d)).
Proof.
  unfold polyCoords. repeat split.
  - intros H. destruct (Nat.ltb_spec 2 (length d)); [| lia].
    destruct d as [| p0 d]; [simpl in H; lia |].
    exists p0. split; reflexivity.
  - intros H. destruct (Nat.ltb_spec 2 (length d)); [lia | reflexivity].
  - intros d0 ds.
    change (d0 :: ds ++ [d]) with ((d0 :: ds) ++ [d]).
    rewrite layerAfter_snoc.
    destruct (layerAfter_defined d0 ds) as (rings & ->). reflexivity.
Qed.

(** ** The avatar *)

Lemma sameSrc_refl (s : option string) : Avatar.sameSrc s s = true.
Proof. destruct s; simpl; [apply String.eqb_refl | reflexivity]. Qed.

(** X13.  The avatar shows the image exactly when it has a non-empty
    [src] and the image has not failed.  Once the image has failed the
    fallback stays, through further renders with the same [src] and
    further errors; a render with a different, non-empty [src] shows the
    image again. *)
Theorem avatar_error_sticks_until_src_changes
        (st : Avatar.State) (es : list Avatar.Event) :
  (Avatar.showsImage st = true ->
   Avatar.showsImage (Avatar.step Avatar.ImgError st) = false) /\
  (Avatar.hasError st = true ->
   Forall (fun e => e = Avatar.ImgError \/ e = Avatar.Render (Avatar.src st))
     es ->
   Avatar.showsImage (Avatar.run es st) = false) /\
  (forall s,
      Avatar.sameSrc s (Avatar.src st) = false ->
      Avatar.showsImage (Avatar.step (Avatar.Render s) st)
      = negb (Avatar.missing s)) /\
  (forall s, Avatar.showsImage (Avatar.mount s) = negb (Avatar.missing s)).
Proof.
  split; [| split; [| split]].
  - intros H. unfold Avatar.step. rewrite H.
    unfold Avatar.showsImage. simpl. apply andb_false_r.
  - intros Herr Hall.
    assert (Hinv : Avatar.hasError (Avatar.run es st) = true).
    { revert st Herr Hall. induction es as [| e es IH]; intros st Herr Hall;
        [exact Herr |].
      inversion Hall as [| e' es' He Hes]; subst. simpl. apply IH.
      - destruct He as [-> | ->]; simpl.
        + destruct (Avatar.showsImage st); [reflexivity | exact Herr].
        + rewrite sameSrc_refl. exact Herr.
      - destruct He as [-> | ->]; simpl.
        + destruct (Avatar.showsImage st); exact Hes.
        + rewrite sameSrc_refl. exact Hes. }
    unfold Avatar.showsImage. rewrite Hinv. apply andb_false_r.
  - intros s Hs. unfold Avatar.step. rewrite Hs.
    unfold Avatar.showsImage. simpl.
    destruct (Avatar.missing s); reflexivity.
  - intros s. unfold Avatar.showsImage, Avatar.mount. simpl.
    destruct (Avatar.missing s); reflexivity.
Qed.

Lemma avatar_error_sticks_until_src_changes_witness :
  Avatar.showsImage
    (Avatar.run [Avatar.Render currentUserAvatar; Avatar.ImgError]
       (Avatar.step Avatar.ImgError (Avatar.mount currentUserAvatar)))
  = false.
Proof.
  exact (proj1 (proj2 (avatar_error_sticks_until_src_changes
                         (Avatar.step Avatar.ImgError
                            (Avatar.mount currentUserAvatar))
                         [Avatar.Render currentUserAvatar; Avatar.ImgError]))
           eq_refl
           (Forall_cons _ (or_intror eq_refl)
              (Forall_cons _ (or_introl eq_refl) (Forall_nil _)))).
Defined.

(** ** The single-route application *)

Lemma raised_failed (o : FetchOutcome) : raised o = true -> failed o.
Proof.
  destruct o as [| [okay st [data |]]]; simpl; intros H; auto.
  destruct okay; [discriminate | left; reflexivity].
Qed.

Lemma legacy_runCleanup_length (r : Legacy.Runtime) :
  length (Legacy.runCleanup r) = length (Legacy.isMounted r).
Proof.
  unfold Legacy.runCleanup.
  destruct (Legacy.cleanup r); [apply setNth_length | reflexivity].
Qed.

Lemma legacy_render_waypoints (us : list Legacy.SetState)
      (r : Legacy.Runtime) :
  Legacy.waypoints (Legacy.app (Legacy.render us r))
  = Legacy.waypoints (Legacy.commit us (Legacy.app r)).
Proof.
  unfold Legacy.render. destruct (Legacy.waypointsChanged us);
    [| reflexivity].
  unfold Legacy.routeEffect, fetchRoute. simpl.
  destruct (length (Legacy.waypoints (Legacy.commit us (Legacy.app r)))
            <? 2)%nat; reflexivity.
Qed.

(** A change of the waypoints to two or more entries sends one request,
    guarded by a fresh [isMounted] variable, and resets the variable of the
    previous run of the effect. *)
Lemma legacy_render_issues (us : list Legacy.SetState) (r : Legacy.Runtime) :
  Legacy.waypointsChanged us = true ->
  (2 <= length (Legacy.waypoints (Legacy.commit us (Legacy.app r))))%nat ->
  Legacy.render us r =
  Legacy.mkRuntime (Legacy.commit us (Legacy.app r))
    (Legacy.runCleanup r ++ [true])
    (Legacy.requests r ++
       [Legacy.mkRequest
          (mkUrl (Legacy.waypoints (Legacy.commit us (Legacy.app r))) false)
          (settle
             (fetchRoute (Legacy.waypoints (Legacy.commit us (Legacy.app r)))))
          (length (Legacy.isMounted r)) false])
    (Some (length (Legacy.isMounted r))).
Proof.
  intros Hch Hlen. unfold Legacy.render. rewrite Hch.
  unfold Legacy.routeEffect, fetchRoute. simpl Legacy.app.
  destruct (Nat.ltb_spec
              (length (Legacy.waypoints (Legacy.commit us (Legacy.app r)))) 2)
    as [Hlt | _]; [lia |].
  change (Legacy.runCleanup (Legacy.mkRuntime _ (Legacy.isMounted r)
                               (Legacy.requests r) (Legacy.cleanup r)))
    with (Legacy.runCleanup r).
  rewrite (legacy_runCleanup_length r). reflexivity.
Qed.

(** The answer to the request issued last, while it is current. *)
Lemma legacy_deliver_current
      (s : Legacy.State) (flags : list bool) (rs : list Legacy.Request)
      (q : Legacy.Request) (c : option nat) (o : FetchOutcome)
      (cs : list Coord) :
  Legacy.settled q = false -> Legacy.guard q = length flags ->
  Legacy.resume q o = Ok cs ->
  Legacy.app
    (Legacy.deliver (length rs) o
       (Legacy.mkRuntime s (flags ++ [true]) (rs ++ [q]) c))
  = Legacy.commit [Legacy.setRoute cs] s.
Proof.
  intros Hs Hg Hcs. unfold Legacy.deliver. simpl.
  rewrite nth_error_app2 by lia. rewrite Nat.sub_diag. simpl.
  rewrite Hs, Hcs, Hg. rewrite app_nth2 by lia. rewrite Nat.sub_diag.
  reflexivity.
Qed.

(** X14.  In the single-route application a request whose fetch fails
    (rejected, status not a success, or body not parsed) ends with the
    route set to the waypoints themselves, which is drawn as a straight
    line; an answer without routes ends with no route drawn. *)
Theorem legacy_failure_draws_straight_line
        (r : Legacy.Runtime) (us : list Legacy.SetState) (o : FetchOutcome) :
  Legacy.waypointsChanged us = true ->
  (2 <= length (Legacy.waypoints (Legacy.commit us (Legacy.app r))))%nat ->
  failed o ->
  let ws := Legacy.waypoints (Legacy.commit us (Legacy.app r)) in
  let s' := Legacy.app
              (Legacy.deliver (length (Legacy.requests r)) o
                 (Legacy.render us r)) in
  Legacy.route s' = (if raised o then ws else []) /\
  Legacy.showsRoute s' = raised o.
Proof.
  intros Hch Hlen Hf ws s'. subst s'.
  rewrite (legacy_render_issues us r Hch Hlen).
  rewrite (legacy_deliver_current _ _ _ _ _ o (if raised o then ws else []));
    try reflexivity.
  - simpl. split; [reflexivity |]. unfold Legacy.showsRoute. simpl.
    destruct (raised o); [| reflexivity].
    apply Nat.ltb_lt. subst ws. lia.
  - simpl. symmetry. apply legacy_runCleanup_length.
  - simpl. apply fetchRoute_failed; assumption.
Qed.

Lemma legacy_failure_draws_straight_line_witness :
  Legacy.route
    (Legacy.app
       (Legacy.deliver (length (Legacy.requests Legacy.initial)) Rejected
          (Legacy.render legacyToAB Legacy.initial)))
  = (if raised Rejected
     then Legacy.waypoints (Legacy.commit legacyToAB (Legacy.app Legacy.initial))
     else []).
Proof.
  exact (proj1 (legacy_failure_draws_straight_line Legacy.initial legacyToAB
                  Rejected ltac:(vm_compute; reflexivity)
                  ltac:(vm_compute; lia) I)).
Defined.

Lemma fetchRoute_total (ws : list Coord) (o : FetchOutcome) :
  exists cs, settle (fetchRoute ws) o = Ok cs.
Proof.
  unfold fetchRoute. destruct (length ws <? 2)%nat; simpl;
    [eexists; reflexivity |].
  match goal with
  | |- exists cs, try_catch ?c _ = Ok cs => destruct c
  end; eexists; reflexivity.
Qed.

Lemma legacy_onRoute_quiet (m : bool) (cs : list Coord) :
  Legacy.waypointsChanged (Legacy.onRoute m cs) = false.
Proof. destruct m; reflexivity. Qed.

(** The answer to a request whose [isMounted] variable has been reset
    changes no state variable. *)
Lemma legacy_deliver_stale (r : Legacy.Runtime) (n : nat)
      (q : Legacy.Request) (o : FetchOutcome) :
  nth_error (Legacy.requests r) n = Some q ->
  nth (Legacy.guard q) (Legacy.isMounted r) false = false ->
  Legacy.app (Legacy.deliver n o r) = Legacy.app r.
Proof.
  intros Hq Hoff. unfold Legacy.deliver. rewrite Hq.
  destruct (Legacy.settled q); [reflexivity |].
  destruct (Legacy.resume q o); [| reflexivity].
  rewrite Hoff. reflexivity.
Qed.

Lemma legacy_deliver_live (r : Legacy.Runtime) (n : nat)
      (q : Legacy.Request) (o : FetchOutcome) (cs : list Coord) :
  nth_error (Legacy.requests r) n = Some q ->
  Legacy.settled q = false ->
  nth (Legacy.guard q) (Legacy.isMounted r) false = true ->
  Legacy.resume q o = Ok cs ->
  Legacy.app (Legacy.deliver n o r)
  = Legacy.commit [Legacy.setRoute cs] (Legacy.app r).
Proof.
  intros Hq Hs Hon Hcs. unfold Legacy.deliver.
  rewrite Hq, Hs, Hcs, Hon. reflexivity.
Qed.

(** ** Pinning points of interest *)

Lemma legacy_run_app (es1 es2 : list Legacy.Event) (r : Legacy.Runtime) :
  Legacy.run (es1 ++ es2) r = Legacy.run es2 (Legacy.run es1 r).
Proof. unfold Legacy.run. apply fold_left_app. Qed.

Lemma legacy_pin_step (r : Legacy.Runtime) (v : Coord * Z) :
  Legacy.run (Legacy.pin v) r =
  Legacy.mkRuntime
    (Legacy.mkState
       (Legacy.blips (Legacy.app r)
        ++ Legacy.pinned (length (Legacy.blips (Legacy.app r))) [v])
       (Legacy.waypoints (Legacy.app r)) (Legacy.route (Legacy.app r)) None
       (Legacy.isSidebarOpen (Legacy.app r)))
    (Legacy.isMounted r) (Legacy.requests r) (Legacy.cleanup r).
Proof. destruct v as [[x y] now]. reflexivity. Qed.

(** X16.  In the single-route application, pinning points one after the
    other (a click on the map and "Add Blip" for each) appends one point
    of interest per click, at the clicked coordinates and in the order
    clicked, labelled [Blip #k] with [k] counting on from the number of
    points of interest already there; the waypoints and the route are
    untouched and no request is sent. *)
Theorem legacy_pins_are_numbered (vs : list (Coord * Z))
        (r : Legacy.Runtime) :
  let r' := Legacy.run (flat_map Legacy.pin vs) r in
  Legacy.blips (Legacy.app r')
  = Legacy.blips (Legacy.app r)
    ++ Legacy.pinned (length (Legacy.blips (Legacy.app r))) vs /\
  Legacy.waypoints (Legacy.app r') = Legacy.waypoints (Legacy.app r) /\
  Legacy.route (Legacy.app r') = Legacy.route (Legacy.app r) /\
  Legacy.requests r' = Legacy.requests r.
Proof.
  revert r. induction vs as [| v vs IH]; intros r r'; subst r'.
  - simpl. rewrite app_nil_r. repeat split.
  - change (flat_map Legacy.pin (v :: vs))
      with (Legacy.pin v ++ flat_map Legacy.pin vs).
    rewrite legacy_run_app, legacy_pin_step.
    set (r1 := Legacy.mkRuntime _ _ _ _).
    destruct (IH r1) as (Hb & Hw & Hr & Hq).
    rewrite Hb, Hw, Hr, Hq. unfold r1. simpl.
    rewrite length_app. simpl.
    replace (length (Legacy.blips (Legacy.app r)) + 1)%nat
      with (S (length (Legacy.blips (Legacy.app r)))) by lia.
    rewrite <- app_assoc. repeat split.
Qed.

(** * Properties of whole executions *)

(** ** Supersession in every execution *)

Lemma keepsWaypoints_quiet (e : Event) (s : State) :
  keepsWaypoints e = true -> waypointsChanged (handler e s) = false.
Proof. handler_cases e; intros H; try reflexivity; discriminate. Qed.

Lemma dispatch_render (e : Event) (r : Runtime) :
  (forall n o, e <> RouteResponse n o) ->
  dispatch e r = render (handler e (app r)) r.
Proof.
  destruct e; intros H; try reflexivity. exfalso. eapply H. reflexivity.
Qed.

Lemma issuing_event (e : Event) (r : Runtime) :
  waypointsChanged (handler e (app r)) = true ->
  dispatch e r = render (handler e (app r)) r.
Proof.
  intros H. apply dispatch_render. intros n o ->. discriminate.
Qed.

(** What holds of every state reached after mounting. *)
Lemma sound_run (es : list Event) (r : Runtime) :
  settledDown r /\ freshGuards r ->
  settledDown (run es r) /\ freshGuards (run es r).
Proof.
  apply (invariant_run (fun r => settledDown r /\ freshGuards r)).
  intros e r' (H1 & H2).
  split; [apply settledDown_dispatch, H1 | apply freshGuards_dispatch, H2].
Qed.

Lemma sound_initial : settledDown initial /\ freshGuards initial.
Proof. split; [apply settledDown_initial | apply (freshGuards_run [])]. Qed.

(** A run of the effect supersedes every request sent before. *)
Lemma effect_supersedes (r : Runtime) (n : nat) (q : Request) :
  (forall g, nth g (isMounted r) false = true -> cleanup r = Some g) ->
  freshGuards r ->
  nth_error (requests r) n = Some q ->
  superseded (routeEffect r) n.
Proof.
  intros Hone (Hlt & _) Hq.
  pose proof (runCleanup_length r) as Hlen.
  pose proof (runCleanup_all_false r (guard q) Hone) as Hoff.
  specialize (Hlt n q Hq).
  effect_cases r; exists q; simpl.
  - repeat split; [exact Hq | lia | exact Hoff].
  - split; [| split].
    + rewrite nth_error_app1; [exact Hq |]. apply nth_error_Some. congruence.
    + rewrite length_app. simpl. lia.
    + rewrite app_nth1 by lia. exact Hoff.
Qed.

(** A request, once sent, keeps its place, its URL and its guard. *)
Lemma request_persists (e : Event) (r : Runtime) (n : nat) (q : Request) :
  nth_error (requests r) n = Some q ->
  exists q', nth_error (requests (dispatch e r)) n = Some q' /\
             req_url q' = req_url q /\ guard q' = guard q.
Proof.
  intros Hq.
  destruct (dispatch_shape e r) as [(m & o & ->) | [(_ & ->) | (_ & ->)]].
  - destruct (deliver_cases m o r) as [-> | (x & Hx & _ & Hcase)];
      [exists q; auto |].
    assert (Hset : exists q',
               nth_error (setNth m (answered x) (requests r)) n = Some q' /\
               req_url q' = req_url q /\ guard q' = guard q).
    { destruct (Nat.eq_dec m n) as [-> | Hne].
      - exists (answered x).
        rewrite (nth_error_setNth_same n (answered x) x _ Hx).
        assert (x = q) by congruence. subst x. auto.
      - exists q. rewrite nth_error_setNth_other by exact Hne. auto. }
    destruct Hcase as [-> | (_ & d & _ & ->)]; exact Hset.
  - exists q. auto.
  - set (ra := handled e r).
    assert (Hq' : nth_error (requests ra) n = Some q) by exact Hq.
    exists q. effect_cases ra; simpl; [auto |].
    rewrite nth_error_app1; [auto |]. apply nth_error_Some.
    change (requests ra) with (requests r). congruence.
Qed.

Lemma request_persists_run (es : list Event) (r : Runtime) (n : nat)
      (q : Request) :
  nth_error (requests r) n = Some q ->
  exists q', nth_error (requests (run es r)) n = Some q' /\
             req_url q' = req_url q /\ guard q' = guard q.
Proof.
  revert r q. induction es as [| e es IH]; intros r q Hq;
    [exists q; auto |].
  destruct (request_persists e r n q Hq) as (q1 & Hq1 & Hu1 & Hg1).
  destruct (IH (dispatch e r) q1 Hq1) as (q2 & Hq2 & Hu2 & Hg2).
  exists q2. simpl. repeat split; congruence.
Qed.

(** Bystander events leave the current request current. *)
Lemma live_bystander (e : Event) (r : Runtime) (n : nat) (q : Request) :
  live r n q -> bystander n e = true -> live (dispatch e r) n q.
Proof.
  intros Hlive Hb. apply andb_prop in Hb as (Hk & Hn).
  destruct e as [| x y m | k | k | | | | | | | | | | | x y | k | | | m o];
    try discriminate;
    try (rewrite dispatch_render by (intros ? ? ?; discriminate);
         rewrite render_quiet by (apply keepsWaypoints_quiet; exact Hk);
         exact Hlive).
  apply live_deliver_other; [| exact Hlive].
  destruct (Nat.eqb_spec m n); [discriminate | assumption].
Qed.

Lemma live_bystanders (es : list Event) (r : Runtime) (n : nat)
      (q : Request) :
  live r n q -> forallb (bystander n) es = true -> live (run es r) n q.
Proof.
  revert r. induction es as [| e es IH]; intros r Hlive Hall; [exact Hlive |].
  simpl in Hall. apply andb_prop in Hall as (He & Hes).
  simpl. apply IH; [apply live_bystander; assumption | exact Hes].
Qed.

(** The answer to the current request leaves no request current. *)
Lemma deliver_settles (r : Runtime) (n : nat) (q : Request)
      (o : FetchOutcome) :
  settledDown r -> freshGuards r -> live r n q -> noLive (deliver n o r).
Proof.
  intros (Hone & _) (_ & Hinj) (Hq & Hs & Hon) m x (Hx & Hxs & Hxon).
  rewrite deliver_isMounted in Hxon.
  destruct (Nat.eq_dec n m) as [<- | Hne].
  - unfold deliver in Hx. rewrite Hq, Hs in Hx.
    destruct (resume q o);
      [rewrite render_quiet in Hx by apply onRoutes_quiet |];
      simpl in Hx;
      rewrite (nth_error_setNth_same n _ q _ Hq) in Hx;
      injection Hx as <-; discriminate.
  - rewrite deliver_requests_other in Hx by exact Hne.
    apply Hne. apply (Hinj n m q x Hq Hx).
    pose proof (Hone _ Hon) as H1. pose proof (Hone _ Hxon) as H2.
    congruence.
Qed.

(** With no request current, events that keep the waypoints keep the
    routes. *)
Lemma noLive_keeps (e : Event) (r : Runtime) :
  noLive r -> keepsWaypoints e = true ->
  noLive (dispatch e r) /\ routes (app (dispatch e r)) = routes (app r).
Proof.
  intros Hno Hk.
  destruct e as [| x y m | k | k | | | | | | | | | | | x y | k | | | m o];
    try discriminate;
    try (rewrite dispatch_render by (intros ? ? ?; discriminate);
         rewrite render_quiet by (apply keepsWaypoints_quiet; exact Hk);
         split; [exact Hno | apply handler_routes;
                             apply keepsWaypoints_quiet; exact Hk]).
  simpl dispatch.
  destruct (deliver_cases m o r) as [-> | (q & Hq & Hs & Hcase)];
    [split; [exact Hno | reflexivity] |].
  destruct Hcase as [-> | (Hon & _)].
  - split; [| reflexivity].
    intros n x (Hx & Hxs & Hxon). simpl in *.
    apply nth_error_setNth in Hx as [(_ & ->) | (_ & Hx)];
      [discriminate |].
    apply (Hno n x). repeat split; assumption.
  - exfalso. apply (Hno m q). repeat split; assumption.
Qed.

Lemma noLive_run (es : list Event) (r : Runtime) :
  noLive r -> forallb keepsWaypoints es = true ->
  noLive (run es r) /\ routes (app (run es r)) = routes (app r).
Proof.
  revert r. induction es as [| e es IH]; intros r Hno Hall;
    [split; [exact Hno | reflexivity] |].
  simpl in Hall. apply andb_prop in Hall as (He & Hes).
  destruct (noLive_keeps e r Hno He) as (Hno' & Hr).
  destruct (IH (dispatch e r) Hno' Hes) as (Hno'' & Hr').
  simpl. split; [exact Hno'' | congruence].
Qed.

(** C1.  In any execution after mounting, let an event [e1] send request
    [n1] for the waypoints [G1] and a later event [e2] send request [n2]
    for [G2], with any events at all between the two.  From then on the
    answer to [n1] changes no state variable, whenever it arrives.  And
    when the answer to [n2] arrives, with any events that keep the
    waypoints before and after it (ticks, clicks, the answer to [n1] or to
    any other request), the routes held at the end are those that
    [fetchRoutes] yields for [G2]. *)
Theorem superseded_response_discarded
        (es0 es1 es2 es3 : list Event) (e1 e2 : Event) (o2 : FetchOutcome) :
  let r := run es0 initial in
  let r1 := dispatch e1 r in
  let ra := run es1 r1 in
  let r2 := dispatch e2 ra in
  let n1 := length (requests r) in
  let n2 := length (requests ra) in
  issues e1 r ->
  issues e2 ra ->
  forallb (bystander n2) es2 = true ->
  forallb keepsWaypoints es3 = true ->
  option_map req_url (nth_error (requests r2) n1)
    = Some (mkUrl (waypoints (app r1)) true) /\
  option_map req_url (nth_error (requests r2) n2)
    = Some (mkUrl (waypoints (app r2)) true) /\
  (forall es o1,
      app (deliver n1 o1 (run es r2)) = app (run es r2)) /\
  Ok (routes (app (run es3 (deliver n2 o2 (run es2 r2)))))
    = settle (fetchRoutes (waypoints (app r2))) o2.
Proof.
  intros r r1 ra r2 n1 n2 (Hc1 & Hl1) (Hc2 & Hl2) Hes2 Hes3.
  assert (Hr : settledDown r /\ freshGuards r)
    by (apply sound_run, sound_initial).
  assert (Hr1 : settledDown r1 /\ freshGuards r1).
  { split; [apply settledDown_dispatch | apply freshGuards_dispatch];
      apply Hr. }
  assert (Hra : settledDown ra /\ freshGuards ra)
    by (apply sound_run, Hr1).
  assert (Hr2 : settledDown r2 /\ freshGuards r2).
  { split; [apply settledDown_dispatch | apply freshGuards_dispatch];
      apply Hra. }
  assert (E1 : r1 = render (handler e1 (app r)) r)
    by (apply issuing_event, Hc1).
  assert (E2 : r2 = render (handler e2 (app ra)) ra)
    by (apply issuing_event, Hc2).
  fold r1 in Hl1. fold r2 in Hl2.
  rewrite E1, render_waypoints in Hl1. rewrite E2, render_waypoints in Hl2.
  destruct (render_issues _ r Hc1 Hl1)
    as (q1 & Hreq1 & Hurl1 & _ & (Hq1 & _) & _).
  rewrite <- E1 in Hreq1, Hq1. fold n1 in Hq1.
  destruct (request_persists_run es1 r1 n1 q1 Hq1)
    as (qa & Hqa & Hurla & Hga).
  fold ra in Hqa.
  destruct (render_issues _ ra Hc2 Hl2)
    as (q2 & Hreq2 & Hurl2 & Hres2 & Hlive2 & _).
  rewrite <- E2 in Hreq2, Hlive2. fold n2 in Hlive2.
  assert (Hsup : superseded r2 n1).
  { rewrite E2, (render_effect _ ra Hc2).
    apply (effect_supersedes _ n1 qa);
      [exact (proj1 (proj1 Hra)) | exact (proj2 Hra) | exact Hqa]. }
  assert (Hw1 : waypoints (app r1) = waypoints (commit (handler e1 (app r))
                                                   (app r)))
    by (rewrite E1; apply render_waypoints).
  assert (Hw2 : waypoints (app r2) = waypoints (commit (handler e2 (app ra))
                                                   (app ra)))
    by (rewrite E2; apply render_waypoints).
  split; [| split; [| split]].
  - rewrite Hreq2, nth_error_app1
      by (apply nth_error_Some; rewrite Hqa; discriminate).
    rewrite Hqa. simpl. rewrite Hurla, Hurl1, Hw1. reflexivity.
  - destruct Hlive2 as (Hq2 & _). rewrite Hq2. simpl.
    rewrite Hurl2, Hw2. reflexivity.
  - intros es o1. apply superseded_inert, superseded_run, Hsup.
  - set (rb := run es2 r2).
    assert (Hrb : settledDown rb /\ freshGuards rb) by (apply sound_run, Hr2).
    assert (Hliveb : live rb n2 q2) by (apply live_bystanders; assumption).
    destruct (fetchRoutes_total
                (waypoints (commit (handler e2 (app ra)) (app ra))) o2)
      as (d & Hd).
    assert (Hd2 : resume q2 o2 = Ok d) by (rewrite Hres2; exact Hd).
    destruct (noLive_run es3 (deliver n2 o2 rb)) as (_ & Hroutes);
      [apply (deliver_settles rb n2 q2 o2); [apply Hrb | apply Hrb | exact Hliveb]
      | exact Hes3 |].
    rewrite Hroutes, (deliver_live rb n2 q2 o2 d Hliveb Hd2), Hw2, Hd.
    reflexivity.
Qed.

Lemma superseded_response_discarded_witness :
  (forall es o1,
      app (deliver (length (requests (run beforeG1 initial))) o1
             (run es (dispatch AddWaypointClick
                        (run betweenG1G2
                           (dispatch AddWaypointClick
                              (run beforeG1 initial))))))
      = app (run es (dispatch AddWaypointClick
                       (run betweenG1G2
                          (dispatch AddWaypointClick
                             (run beforeG1 initial)))))) /\
  Ok (routes
        (app (run [Tick]
                (deliver
                   (length
                      (requests
                         (run betweenG1G2
                            (dispatch AddWaypointClick
                               (run beforeG1 initial)))))
                   oneRoute
                   (run afterG2
                      (dispatch AddWaypointClick
                         (run betweenG1G2
                            (dispatch AddWaypointClick
                               (run beforeG1 initial)))))))))
  = settle
      (fetchRoutes
         (waypoints
            (app (dispatch AddWaypointClick
                    (run betweenG1G2
                       (dispatch AddWaypointClick
                          (run beforeG1 initial)))))))
      oneRoute.
Proof.
  destruct (superseded_response_discarded beforeG1 betweenG1G2 afterG2
              [Tick] AddWaypointClick AddWaypointClick oneRoute
              ltac:(split; [vm_compute; reflexivity | vm_compute; lia])
              ltac:(split; [vm_compute; reflexivity | vm_compute; lia])
              ltac:(vm_compute; reflexivity)
              ltac:(vm_compute; reflexivity))
    as (_ & _ & H1 & H2).
  split; [exact H1 | exact H2].
Defined.

(** ** A drawing session *)

Lemma drawing_gestures (es : list Event) (r : Runtime) :
  isDrawing (app r) = true -> waypoints (app r) = [] ->
  forallb drawingGesture es = true ->
  run es r =
  mkRuntime
    (commit [setDrawnPolygon (fun prev => prev ++ vertices es);
             setSelectedBlip
               (lastBlipClicked (blips (app r)) es (selectedBlip (app r)))]
       (app r))
    (isMounted r) (requests r) (cleanup r).
Proof.
  revert r. induction es as [| e es IH]; intros r Hd Hw Hall.
  - destruct r as [[] ? ? ?]. simpl. rewrite app_nil_r. reflexivity.
  - simpl in Hall. apply andb_prop in Hall as (He & Hes).
    change (run (e :: es) r) with (run es (dispatch e r)).
    destruct e as [| x y m | k | k | | | | | | | | | | | x y | k | | | n o];
      try discriminate.
    + assert (E : dispatch (MapClick x y m) r =
                  mkRuntime
                    (commit [setDrawnPolygon (fun prev => prev ++ [(x, y)])]
                       (app r))
                    (isMounted r) (requests r) (cleanup r)).
      { unfold dispatch, handler, handleMapClick. rewrite Hd. reflexivity. }
      rewrite E, IH by assumption.
      destruct r as [[] ? ? ?]. simpl. rewrite <- app_assoc. reflexivity.
    + destruct (nth_error (blips (app r)) k) as [b |] eqn:Hb.
      * assert (E : dispatch (BlipMarkerClick k) r =
                    mkRuntime (commit [setSelectedBlip (Some b)] (app r))
                      (isMounted r) (requests r) (cleanup r)).
        { unfold dispatch, handler. rewrite Hb. reflexivity. }
        rewrite E, IH by assumption.
        destruct r as [[] ? ? ?]. simpl in *. rewrite Hb. reflexivity.
      * assert (E : dispatch (BlipMarkerClick k) r =
                    mkRuntime (app r) (isMounted r) (requests r) (cleanup r)).
        { unfold dispatch, handler. rewrite Hb. reflexivity. }
        rewrite E, IH by assumption.
        destruct r as [[] ? ? ?]. simpl in *. rewrite Hb. reflexivity.
    + assert (E : dispatch (WaypointMarkerClick k) r =
                  mkRuntime (app r) (isMounted r) (requests r) (cleanup r)).
      { unfold dispatch, handler. rewrite Hw. destruct k; reflexivity. }
      rewrite E, IH by assumption.
      destruct r as [[] ? ? ?]. reflexivity.
Qed.

(** X6.  A drawing session started with drawing off: "Draw Area", any
    clicks on the map and on markers, "Finish Drawing".  The drawn area
    then holds exactly the points clicked on the map, in order (a click on
    a marker adds its point too: drawing intercepts before the marker
    test); the waypoints and the routes are empty; no request was sent;
    the point selection and the waypoint selection are what they were
    before the session.  The markers' own handlers are not held back by
    drawing: the selected point of interest is that of the last
    point-of-interest marker clicked, if any. *)
Theorem drawing_session (r : Runtime) (es : list Event) :
  isDrawing (app r) = false ->
  forallb drawingGesture es = true ->
  let r' := run (ToggleDrawing :: es ++ [ToggleDrawing]) r in
  drawnPolygon (app r') = vertices es /\
  waypoints (app r') = [] /\
  routes (app r') = [] /\
  isDrawing (app r') = false /\
  requests r' = requests r /\
  selection (app r') = selection (app r) /\
  selectedWaypoint (app r') = selectedWaypoint (app r) /\
  selectedBlip (app r')
  = lastBlipClicked (blips (app r)) es (selectedBlip (app r)).
Proof.
  intros Hd Hall r'. subst r'.
  change (run (ToggleDrawing :: es ++ [ToggleDrawing]) r)
    with (run (es ++ [ToggleDrawing]) (dispatch ToggleDrawing r)).
  rewrite run_app.
  assert (Hon : dispatch ToggleDrawing r =
                mkRuntime
                  (commit [setIsDrawing true; setDrawnPolygon (fun _ => []);
                           setWaypoints (fun _ => []); setRoutes []] (app r))
                  (runCleanup r) (requests r) None).
  { unfold dispatch, handler, toggleDrawing. rewrite Hd.
    rewrite render_effect by reflexivity.
    rewrite routeEffect_short by (simpl; lia). reflexivity. }
  rewrite Hon.
  set (r1 := mkRuntime _ (runCleanup r) (requests r) None).
  rewrite (drawing_gestures es r1 eq_refl eq_refl Hall). subst r1.
  destruct r as [[] ? ? ?]. simpl in *. repeat split.
Qed.

Lemma drawing_session_witness :
  drawnPolygon
    (app (run (ToggleDrawing
               :: [MapClick (fst pointA) (snd pointA) false;
                   BlipMarkerClick 0;
                   MapClick (fst pointB) (snd pointB) true]
                  ++ [ToggleDrawing])
            (run placeAB initial)))
  = vertices [MapClick (fst pointA) (snd pointA) false;
              BlipMarkerClick 0;
              MapClick (fst pointB) (snd pointB) true] /\
  selectedBlip
    (app (run (ToggleDrawing
               :: [MapClick (fst pointA) (snd pointA) false;
                   BlipMarkerClick 0;
                   MapClick (fst pointB) (snd pointB) true]
                  ++ [ToggleDrawing])
            (run placeAB initial)))
  = lastBlipClicked (blips (app (run placeAB initial)))
      [MapClick (fst pointA) (snd pointA) false;
       BlipMarkerClick 0;
       MapClick (fst pointB) (snd pointB) true]
      (selectedBlip (app (run placeAB initial))).
Proof.
  destruct (drawing_session (run placeAB initial)
              [MapClick (fst pointA) (snd pointA) false;
               BlipMarkerClick 0;
               MapClick (fst pointB) (snd pointB) true]
              ltac:(vm_compute; reflexivity) ltac:(vm_compute; reflexivity))
    as (H1 & _ & _ & _ & _ & _ & _ & H2).
  split; [exact H1 | exact H2].
Defined.

(** ** Executions of the single-route application *)

Lemma legacy_routeEffect_short (r : Legacy.Runtime) :
  (length (Legacy.waypoints (Legacy.app r)) < 2)%nat ->
  Legacy.routeEffect r =
  Legacy.mkRuntime (Legacy.commit [Legacy.setRoute []] (Legacy.app r))
    (Legacy.runCleanup r) (Legacy.requests r) None.
Proof.
  intros H. unfold Legacy.routeEffect.
  destruct (Nat.ltb_spec (length (Legacy.waypoints (Legacy.app r))) 2);
    [reflexivity | lia].
Qed.

Lemma legacy_routeEffect_long (r : Legacy.Runtime) :
  (2 <= length (Legacy.waypoints (Legacy.app r)))%nat ->
  Legacy.routeEffect r =
  Legacy.mkRuntime (Legacy.app r) (Legacy.runCleanup r ++ [true])
    (Legacy.requests r ++
       [Legacy.mkRequest (mkUrl (Legacy.waypoints (Legacy.app r)) false)
          (settle (fetchRoute (Legacy.waypoints (Legacy.app r))))
          (length (Legacy.runCleanup r)) false])
    (Some (length (Legacy.runCleanup r))).
Proof.
  intros H. unfold Legacy.routeEffect, fetchRoute.
  destruct (Nat.ltb_spec (length (Legacy.waypoints (Legacy.app r))) 2);
    [lia | reflexivity].
Qed.

(** Case analysis on the length test of the effect. *)
Ltac legacy_effect_cases r :=
  let Hs := fresh "Hshort" in
  let Hl := fresh "Hlong" in
  destruct (Nat.lt_ge_cases (length (Legacy.waypoints (Legacy.app r))) 2)
    as [Hs | Hl];
  [rewrite (legacy_routeEffect_short r Hs)
  | rewrite (legacy_routeEffect_long r Hl)].

Lemma legacy_deliver_cases (n : nat) (o : FetchOutcome)
      (r : Legacy.Runtime) :
  Legacy.deliver n o r = r \/
  exists q,
    nth_error (Legacy.requests r) n = Some q /\
    Legacy.settled q = false /\
    (Legacy.deliver n o r =
     Legacy.mkRuntime (Legacy.app r) (Legacy.isMounted r)
       (setNth n (legacyAnswered q) (Legacy.requests r)) (Legacy.cleanup r) \/
     (nth (Legacy.guard q) (Legacy.isMounted r) false = true /\
      exists cs,
        Legacy.resume q o = Ok cs /\
        Legacy.deliver n o r =
        Legacy.mkRuntime (Legacy.commit [Legacy.setRoute cs] (Legacy.app r))
          (Legacy.isMounted r)
          (setNth n (legacyAnswered q) (Legacy.requests r))
          (Legacy.cleanup r))).
Proof.
  unfold Legacy.deliver.
  destruct (nth_error (Legacy.requests r) n) as [q |] eqn:Hq;
    [| left; reflexivity].
  destruct (Legacy.settled q) eqn:Hs; [left; reflexivity |].
  right. exists q. split; [reflexivity | split; [exact Hs |]].
  destruct (Legacy.resume q o) as [cs | err] eqn:Hd; [| left; reflexivity].
  destruct (nth (Legacy.guard q) (Legacy.isMounted r) false) eqn:Hg.
  - right. split; [reflexivity |]. exists cs. split; reflexivity.
  - left. reflexivity.
Qed.

Lemma legacy_dispatch_shape (e : Legacy.Event) (r : Legacy.Runtime) :
  (exists n o, e = Legacy.RouteResponse n o /\
               Legacy.dispatch e r = Legacy.deliver n o r) \/
  (Legacy.waypointsChanged (Legacy.handler e (Legacy.app r)) = false /\
   (forall n o, e <> Legacy.RouteResponse n o) /\
   Legacy.dispatch e r = legacyHandled e r) \/
  (Legacy.waypointsChanged (Legacy.handler e (Legacy.app r)) = true /\
   Legacy.dispatch e r = Legacy.routeEffect (legacyHandled e r)).
Proof.
  destruct e as [x y m | now | | | | | | n o];
    match goal with
    | |- context [Legacy.dispatch (Legacy.RouteResponse ?n ?o) r] =>
        left; exists n, o; split; reflexivity
    | |- context [Legacy.dispatch ?e r] =>
        right;
        change (Legacy.dispatch e r)
          with (if Legacy.waypointsChanged (Legacy.handler e (Legacy.app r))
                then Legacy.routeEffect (legacyHandled e r)
                else legacyHandled e r);
        destruct (Legacy.waypointsChanged (Legacy.handler e (Legacy.app r)));
        [right; split; reflexivity
        | left; split;
          [reflexivity
          | split; [intros ? ? ?; discriminate | reflexivity]]]
    end.
Qed.

Lemma legacy_runCleanup_all_false (r : Legacy.Runtime) (g : nat) :
  (forall g, nth g (Legacy.isMounted r) false = true ->
             Legacy.cleanup r = Some g) ->
  nth g (Legacy.runCleanup r) false = false.
Proof.
  intros H. unfold Legacy.runCleanup.
  destruct (nth g (Legacy.isMounted r) false) eqn:Hg.
  - rewrite (H g Hg). apply nth_setNth_same.
  - destruct (Legacy.cleanup r); [apply nth_setNth_false |]; exact Hg.
Qed.

Lemma legacySound_effect (r : Legacy.Runtime) :
  legacySound r -> legacySound (Legacy.routeEffect r).
Proof.
  intros (Hone & Hlt & Hinj).
  pose proof (legacy_runCleanup_length r) as Hlen.
  legacy_effect_cases r; (split; [| split]); simpl.
  - intros g Hg. rewrite (legacy_runCleanup_all_false r g Hone) in Hg.
    discriminate.
  - intros n q Hq. rewrite Hlen. eauto.
  - exact Hinj.
  - intros g Hg.
    destruct (Nat.lt_ge_cases g (length (Legacy.runCleanup r))) as [H | H].
    + rewrite app_nth1 in Hg by exact H.
      rewrite (legacy_runCleanup_all_false r g Hone) in Hg. discriminate.
    + rewrite app_nth2 in Hg by exact H.
      destruct (g - length (Legacy.runCleanup r))%nat as [| [| k]] eqn:Hk;
        simpl in Hg; try discriminate.
      f_equal. lia.
  - intros n q Hq. rewrite length_app, Hlen. simpl.
    apply nth_error_snoc in Hq as [Hq | (_ & ->)].
    + specialize (Hlt n q Hq). lia.
    + simpl. lia.
  - intros n m q q' Hq Hq' Hg.
    apply nth_error_snoc in Hq as [Hq | (Hn & ->)];
      apply nth_error_snoc in Hq' as [Hq' | (Hm & ->)].
    + eauto.
    + simpl in Hg. specialize (Hlt n q Hq). lia.
    + simpl in Hg. specialize (Hlt m q' Hq'). lia.
    + congruence.
Qed.

Lemma legacySound_answered (r : Legacy.Runtime) (s : Legacy.State) (n : nat)
      (q : Legacy.Request) :
  legacySound r -> nth_error (Legacy.requests r) n = Some q ->
  legacySound
    (Legacy.mkRuntime s (Legacy.isMounted r)
       (setNth n (legacyAnswered q) (Legacy.requests r)) (Legacy.cleanup r)).
Proof.
  intros (Hone & Hlt & Hinj) Hq. split; [exact Hone | split]; simpl.
  - intros m x Hx.
    apply nth_error_setNth in Hx as [(_ & ->) | (_ & Hx)]; simpl; eauto.
  - intros m1 m2 x1 x2 H1 H2 Hg.
    apply nth_error_setNth in H1 as [(-> & ->) | (Hne1 & H1)];
      apply nth_error_setNth in H2 as [(-> & ->) | (Hne2 & H2)];
      simpl in Hg; eauto.
Qed.

Lemma legacySound_dispatch (e : Legacy.Event) (r : Legacy.Runtime) :
  legacySound r -> legacySound (Legacy.dispatch e r).
Proof.
  intros H.
  destruct (legacy_dispatch_shape e r)
    as [(n & o & _ & ->) | [(_ & _ & ->) | (_ & ->)]].
  - destruct (legacy_deliver_cases n o r)
      as [-> | (q & Hq & _ & [-> | (_ & cs & _ & ->)])];
      [exact H | |]; apply legacySound_answered; assumption.
  - exact H.
  - apply legacySound_effect. exact H.
Qed.

Lemma legacySound_run (es : list Legacy.Event) (r : Legacy.Runtime) :
  legacySound r -> legacySound (Legacy.run es r).
Proof.
  revert r. induction es as [| e es IH]; intros r H; [exact H |].
  simpl. apply IH, legacySound_dispatch, H.
Qed.

Lemma legacySound_initial : legacySound Legacy.initial.
Proof.
  apply legacySound_effect. split; [| split]; simpl.
  - intros [| g]; discriminate.
  - intros [| n] q; discriminate.
  - intros [| n] m q q'; discriminate.
Qed.

Lemma legacy_keeps_quiet (e : Legacy.Event) (s : Legacy.State) :
  legacyKeepsWaypoints e = true ->
  Legacy.waypointsChanged (Legacy.handler e s) = false /\
  Legacy.route (Legacy.commit (Legacy.handler e s) s) = Legacy.route s /\
  Legacy.waypoints (Legacy.commit (Legacy.handler e s) s)
  = Legacy.waypoints s.
Proof.
  destruct e; simpl; unfold Legacy.handleMapClick, Legacy.addBlip;
    repeat match goal with
           | |- context [match ?x with _ => _ end] => destruct x
           end;
    simpl; intros H; try discriminate; repeat split.
Qed.

(** A run of the effect supersedes every request sent before. *)
Lemma legacy_effect_supersedes (r : Legacy.Runtime) (n : nat)
      (q : Legacy.Request) :
  legacySound r -> nth_error (Legacy.requests r) n = Some q ->
  legacySuperseded (Legacy.routeEffect r) n.
Proof.
  intros (Hone & Hlt & _) Hq.
  pose proof (legacy_runCleanup_length r) as Hlen.
  pose proof (legacy_runCleanup_all_false r (Legacy.guard q) Hone) as Hoff.
  specialize (Hlt n q Hq).
  legacy_effect_cases r; exists q; simpl.
  - repeat split; [exact Hq | lia | exact Hoff].
  - split; [| split].
    + rewrite nth_error_app1; [exact Hq |]. apply nth_error_Some. congruence.
    + rewrite length_app. simpl. lia.
    + rewrite app_nth1 by lia. exact Hoff.
Qed.

Lemma legacySuperseded_dispatch (e : Legacy.Event) (r : Legacy.Runtime)
      (n : nat) :
  legacySuperseded r n -> legacySuperseded (Legacy.dispatch e r) n.
Proof.
  intros (q & Hq & Hlt & Hoff).
  destruct (legacy_dispatch_shape e r)
    as [(m & o & _ & ->) | [(_ & _ & ->) | (_ & ->)]].
  - destruct (legacy_deliver_cases m o r)
      as [-> | (x & Hx & _ & Hcase)]; [exists q; auto |].
    assert (Hset : exists q',
               nth_error (setNth m (legacyAnswered x) (Legacy.requests r)) n
               = Some q' /\
               (Legacy.guard q' < length (Legacy.isMounted r))%nat /\
               nth (Legacy.guard q') (Legacy.isMounted r) false = false).
    { destruct (Nat.eq_dec m n) as [-> | Hne].
      - exists (legacyAnswered x).
        rewrite (nth_error_setNth_same n _ x _ Hx).
        assert (x = q) by congruence. subst x. auto.
      - exists q. rewrite nth_error_setNth_other by exact Hne. auto. }
    destruct Hcase as [-> | (_ & cs & _ & ->)]; exact Hset.
  - exists q. auto.
  - set (ra := legacyHandled e r).
    pose proof (legacy_runCleanup_length ra) as Hlen.
    assert (Hoff' : nth (Legacy.guard q) (Legacy.runCleanup ra) false = false).
    { unfold Legacy.runCleanup. destruct (Legacy.cleanup ra);
        [apply nth_setNth_false |]; exact Hoff. }
    change (Legacy.isMounted ra) with (Legacy.isMounted r) in Hlen.
    legacy_effect_cases ra; exists q; simpl.
    + repeat split; [exact Hq | lia | exact Hoff'].
    + split; [| split].
      * rewrite nth_error_app1; [exact Hq |].
        apply nth_error_Some. congruence.
      * rewrite length_app. simpl. lia.
      * rewrite app_nth1 by lia. exact Hoff'.
Qed.

Lemma legacySuperseded_run (es : list Legacy.Event) (r : Legacy.Runtime)
      (n : nat) :
  legacySuperseded r n -> legacySuperseded (Legacy.run es r) n.
Proof.
  revert r. induction es as [| e es IH]; intros r H; [exact H |].
  simpl. apply IH, legacySuperseded_dispatch, H.
Qed.

Lemma legacy_request_persists (e : Legacy.Event) (r : Legacy.Runtime)
      (n : nat) (q : Legacy.Request) :
  nth_error (Legacy.requests r) n = Some q ->
  exists q', nth_error (Legacy.requests (Legacy.dispatch e r)) n = Some q' /\
             Legacy.req_url q' = Legacy.req_url q.
Proof.
  intros Hq.
  destruct (legacy_dispatch_shape e r)
    as [(m & o & _ & ->) | [(_ & _ & ->) | (_ & ->)]].
  - destruct (legacy_deliver_cases m o r)
      as [-> | (x & Hx & _ & Hcase)]; [exists q; auto |].
    assert (Hset : exists q',
               nth_error (setNth m (legacyAnswered x) (Legacy.requests r)) n
               = Some q' /\ Legacy.req_url q' = Legacy.req_url q).
    { destruct (Nat.eq_dec m n) as [-> | Hne].
      - exists (legacyAnswered x).
        rewrite (nth_error_setNth_same n _ x _ Hx).
        assert (x = q) by congruence. subst x. auto.
      - exists q. rewrite nth_error_setNth_other by exact Hne. auto. }
    destruct Hcase as [-> | (_ & cs & _ & ->)]; exact Hset.
  - exists q. auto.
  - set (ra := legacyHandled e r).
    exists q. legacy_effect_cases ra; simpl; [auto |].
    rewrite nth_error_app1; [auto |]. apply nth_error_Some. congruence.
Qed.

Lemma legacy_request_persists_run (es : list Legacy.Event)
      (r : Legacy.Runtime) (n : nat) (q : Legacy.Request) :
  nth_error (Legacy.requests r) n = Some q ->
  exists q', nth_error (Legacy.requests (Legacy.run es r)) n = Some q' /\
             Legacy.req_url q' = Legacy.req_url q.
Proof.
  revert r q. induction es as [| e es IH]; intros r q Hq;
    [exists q; auto |].
  destruct (legacy_request_persists e r n q Hq) as (q1 & Hq1 & Hu1).
  destruct (IH (Legacy.dispatch e r) q1 Hq1) as (q2 & Hq2 & Hu2).
  exists q2. simpl. split; congruence.
Qed.

(** Bystander events leave the current request current. *)
Lemma legacy_live_bystander (e : Legacy.Event) (r : Legacy.Runtime)
      (n : nat) (q : Legacy.Request) :
  legacyLive r n q -> legacyBystander n e = true ->
  legacyLive (Legacy.dispatch e r) n q.
Proof.
  intros (Hq & Hs & Hon) Hb. apply andb_prop in Hb as (Hk & Hn).
  destruct (legacy_dispatch_shape e r)
    as [(m & o & -> & ->) | [(_ & _ & ->) | (Hch & _)]].
  - assert (Hne : m <> n)
      by (destruct (Nat.eqb_spec m n); [discriminate | assumption]).
    destruct (legacy_deliver_cases m o r)
      as [-> | (x & Hx & _ & [-> | (_ & cs & _ & ->)])];
      [repeat split; assumption | |];
      repeat split; simpl; try assumption;
      rewrite nth_error_setNth_other by exact Hne; exact Hq.
  - repeat split; assumption.
  - rewrite (proj1 (legacy_keeps_quiet e _ Hk)) in Hch. discriminate.
Qed.

Lemma legacy_live_bystanders (es : list Legacy.Event) (r : Legacy.Runtime)
      (n : nat) (q : Legacy.Request) :
  legacyLive r n q -> forallb (legacyBystander n) es = true ->
  legacyLive (Legacy.run es r) n q.
Proof.
  revert r. induction es as [| e es IH]; intros r Hlive Hall; [exact Hlive |].
  simpl in Hall. apply andb_prop in Hall as (He & Hes).
  simpl. apply IH; [apply legacy_live_bystander; assumption | exact Hes].
Qed.

(** The answer to the current request leaves no request current. *)
Lemma legacy_deliver_settles (r : Legacy.Runtime) (n : nat)
      (q : Legacy.Request) (o : FetchOutcome) :
  legacySound r -> legacyLive r n q ->
  legacyNoLive (Legacy.deliver n o r).
Proof.
  intros (Hone & _ & Hinj) (Hq & Hs & Hon) m x Hlive.
  assert (Hx : exists s,
             Legacy.deliver n o r =
             Legacy.mkRuntime s (Legacy.isMounted r)
               (setNth n (legacyAnswered q) (Legacy.requests r))
               (Legacy.cleanup r)).
  { unfold Legacy.deliver. rewrite Hq, Hs.
    destruct (Legacy.resume q o); [| eexists; reflexivity].
    unfold Legacy.render. rewrite legacy_onRoute_quiet.
    eexists; reflexivity. }
  destruct Hx as (s & E). rewrite E in Hlive.
  destruct Hlive as (Hx & Hxs & Hxon). simpl in *.
  apply nth_error_setNth in Hx as [(_ & ->) | (Hne & Hx)];
    [discriminate |].
  apply Hne. apply (Hinj m n x q Hx Hq).
  pose proof (Hone _ Hon) as H1. pose proof (Hone _ Hxon) as H2.
  congruence.
Qed.

(** With no request current, events that keep the waypoints keep the
    route and the waypoints. *)
Lemma legacy_noLive_keeps (e : Legacy.Event) (r : Legacy.Runtime) :
  legacyNoLive r -> legacyKeepsWaypoints e = true ->
  legacyNoLive (Legacy.dispatch e r) /\
  Legacy.route (Legacy.app (Legacy.dispatch e r))
  = Legacy.route (Legacy.app r) /\
  Legacy.waypoints (Legacy.app (Legacy.dispatch e r))
  = Legacy.waypoints (Legacy.app r).
Proof.
  intros Hno Hk.
  destruct (legacy_dispatch_shape e r)
    as [(m & o & _ & ->) | [(_ & _ & ->) | (Hch & _)]].
  - destruct (legacy_deliver_cases m o r)
      as [-> | (q & Hq & Hs & [-> | (Hon & _)])];
      [repeat split; exact Hno | |].
    + split; [| split; reflexivity].
      intros n x (Hx & Hxs & Hxon). simpl in *.
      apply nth_error_setNth in Hx as [(_ & ->) | (_ & Hx)];
        [discriminate |].
      apply (Hno n x). repeat split; assumption.
    + exfalso. apply (Hno m q). repeat split; assumption.
  - destruct (legacy_keeps_quiet e (Legacy.app r) Hk) as (_ & Hr & Hw).
    split; [exact Hno | split; assumption].
  - rewrite (proj1 (legacy_keeps_quiet e _ Hk)) in Hch. discriminate.
Qed.

Lemma legacy_noLive_run (es : list Legacy.Event) (r : Legacy.Runtime) :
  legacyNoLive r -> forallb legacyKeepsWaypoints es = true ->
  Legacy.route (Legacy.app (Legacy.run es r)) = Legacy.route (Legacy.app r) /\
  Legacy.waypoints (Legacy.app (Legacy.run es r))
  = Legacy.waypoints (Legacy.app r).
Proof.
  revert r. induction es as [| e es IH]; intros r Hno Hall;
    [split; reflexivity |].
  simpl in Hall. apply andb_prop in Hall as (He & Hes).
  destruct (legacy_noLive_keeps e r Hno He) as (Hno' & Hr & Hw).
  destruct (IH (Legacy.dispatch e r) Hno' Hes) as (Hr' & Hw').
  simpl. split; congruence.
Qed.

Lemma legacy_issuing_event (e : Legacy.Event) (r : Legacy.Runtime) :
  legacyIssues e r ->
  Legacy.dispatch e r = Legacy.routeEffect (legacyHandled e r) /\
  (2 <= length (Legacy.waypoints (Legacy.app (legacyHandled e r))))%nat.
Proof.
  intros (Hch & Hlen).
  destruct (legacy_dispatch_shape e r)
    as [(n & o & -> & _) | [(Hq & _) | (_ & E)]];
    [discriminate | congruence |].
  split; [exact E |]. rewrite E in Hlen. revert Hlen.
  legacy_effect_cases (legacyHandled e r); simpl; intros H; [lia | exact H].
Qed.

Lemma legacySound_handled (e : Legacy.Event) (r : Legacy.Runtime) :
  legacySound r -> legacySound (legacyHandled e r).
Proof. intros H. exact H. Qed.

(** The request that a run of the effect sends is current. *)
Lemma legacy_effect_issues (r : Legacy.Runtime) :
  (2 <= length (Legacy.waypoints (Legacy.app r)))%nat ->
  exists q,
    legacyLive (Legacy.routeEffect r) (length (Legacy.requests r)) q /\
    Legacy.req_url q = mkUrl (Legacy.waypoints (Legacy.app r)) false /\
    Legacy.resume q = settle (fetchRoute (Legacy.waypoints (Legacy.app r))) /\
    Legacy.app (Legacy.routeEffect r) = Legacy.app r.
Proof.
  intros Hlong. rewrite (legacy_routeEffect_long r Hlong).
  exists (Legacy.mkRequest (mkUrl (Legacy.waypoints (Legacy.app r)) false)
            (settle (fetchRoute (Legacy.waypoints (Legacy.app r))))
            (length (Legacy.runCleanup r)) false).
  split; [| split; [| split]]; [| reflexivity ..].
  split; [| split]; simpl.
  - rewrite nth_error_app2, Nat.sub_diag by lia. reflexivity.
  - reflexivity.
  - rewrite app_nth2, Nat.sub_diag by lia. reflexivity.
Qed.

(** X15.  In any execution of the single-route application after
    mounting, let an event [e1] send request [n1] for the waypoints [G1]
    and a later event [e2] send request [n2] for [G2], with any events at
    all between the two.  From then on the answer to [n1] changes no state
    variable, whenever it arrives.  And when the answer to [n2] arrives,
    with any events that keep the waypoints before and after it (clicks,
    the sidebar, the answer to [n1] or to any other request), the route
    held at the end is the one that [fetchRoute] yields for [G2]. *)
Theorem legacy_superseded_response_discarded
        (es0 es1 es2 es3 : list Legacy.Event) (e1 e2 : Legacy.Event)
        (o2 : FetchOutcome) :
  let r := Legacy.run es0 Legacy.initial in
  let r1 := Legacy.dispatch e1 r in
  let ra := Legacy.run es1 r1 in
  let r2 := Legacy.dispatch e2 ra in
  let n1 := length (Legacy.requests r) in
  let n2 := length (Legacy.requests ra) in
  legacyIssues e1 r ->
  legacyIssues e2 ra ->
  forallb (legacyBystander n2) es2 = true ->
  forallb legacyKeepsWaypoints es3 = true ->
  option_map Legacy.req_url (nth_error (Legacy.requests r2) n1)
    = Some (mkUrl (Legacy.waypoints (Legacy.app r1)) false) /\
  option_map Legacy.req_url (nth_error (Legacy.requests r2) n2)
    = Some (mkUrl (Legacy.waypoints (Legacy.app r2)) false) /\
  (forall es o1,
      Legacy.app (Legacy.deliver n1 o1 (Legacy.run es r2))
      = Legacy.app (Legacy.run es r2)) /\
  Ok (Legacy.route
        (Legacy.app
           (Legacy.run es3 (Legacy.deliver n2 o2 (Legacy.run es2 r2)))))
    = settle (fetchRoute (Legacy.waypoints (Legacy.app r2))) o2.
Proof.
  intros r r1 ra r2 n1 n2 Hi1 Hi2 Hes2 Hes3.
  assert (Hr : legacySound r) by apply legacySound_run, legacySound_initial.
  assert (Hra : legacySound ra)
    by apply legacySound_run, legacySound_dispatch, Hr.
  assert (Hr2 : legacySound r2) by apply legacySound_dispatch, Hra.
  destruct (legacy_issuing_event e1 r Hi1) as (E1 & Hl1).
  destruct (legacy_issuing_event e2 ra Hi2) as (E2 & Hl2).
  destruct (legacy_effect_issues _ Hl1) as (q1 & (Hq1 & _) & Hurl1 & _ & Ha1).
  destruct (legacy_effect_issues _ Hl2) as (q2 & Hlive2 & Hurl2 & Hres2 & Ha2).
  rewrite <- E1 in Hq1, Ha1. rewrite <- E2 in Hlive2, Ha2.
  change (Legacy.dispatch e1 r) with r1 in Hq1, Ha1.
  change (Legacy.dispatch e2 ra) with r2 in Hlive2, Ha2.
  change (length (Legacy.requests (legacyHandled e1 r))) with n1 in Hq1.
  change (length (Legacy.requests (legacyHandled e2 ra))) with n2 in Hlive2.
  destruct (legacy_request_persists_run es1 r1 n1 q1 Hq1)
    as (qa & Hqa & Hurla).
  fold ra in Hqa.
  assert (Hsup : legacySuperseded r2 n1).
  { unfold r2. rewrite E2.
    apply (legacy_effect_supersedes (legacyHandled e2 ra) n1 qa);
      [apply legacySound_handled, Hra | exact Hqa]. }
  split; [| split; [| split]].
  - destruct (legacy_request_persists e2 ra n1 qa Hqa) as (qb & Hqb & Hurlb).
    fold r2 in Hqb. rewrite Hqb. simpl.
    rewrite Hurlb, Hurla, Hurl1, Ha1. reflexivity.
  - destruct Hlive2 as (Hq2 & _). rewrite Hq2. simpl.
    rewrite Hurl2, Ha2. reflexivity.
  - intros es o1.
    destruct (legacySuperseded_run es r2 n1 Hsup) as (q & Hq & _ & Hoff).
    apply (legacy_deliver_stale _ n1 q o1 Hq Hoff).
  - set (rb := Legacy.run es2 r2).
    assert (Hrb : legacySound rb) by apply legacySound_run, Hr2.
    assert (Hliveb : legacyLive rb n2 q2)
      by (apply legacy_live_bystanders; assumption).
    destruct (fetchRoute_total
                (Legacy.waypoints (Legacy.app (legacyHandled e2 ra))) o2)
      as (cs & Hcs).
    assert (Hd2 : Legacy.resume q2 o2 = Ok cs) by (rewrite Hres2; exact Hcs).
    destruct (legacy_noLive_run es3 (Legacy.deliver n2 o2 rb)) as (Hroute & _);
      [apply (legacy_deliver_settles rb n2 q2 o2 Hrb Hliveb) | exact Hes3 |].
    destruct Hliveb as (Hqb & Hsb & Honb).
    rewrite Hroute, (legacy_deliver_live rb n2 q2 o2 cs Hqb Hsb Honb Hd2).
    rewrite Ha2, Hcs. reflexivity.
Qed.

Lemma legacy_superseded_response_discarded_witness :
  (forall es o1,
      Legacy.app
        (Legacy.deliver
           (length (Legacy.requests (Legacy.run legacyBeforeG1 Legacy.initial)))
           o1
           (Legacy.run es
              (Legacy.dispatch Legacy.AddWaypointClick
                 (Legacy.run legacyBetween
                    (Legacy.dispatch Legacy.AddWaypointClick
                       (Legacy.run legacyBeforeG1 Legacy.initial))))))
      = Legacy.app
          (Legacy.run es
             (Legacy.dispatch Legacy.AddWaypointClick
                (Legacy.run legacyBetween
                   (Legacy.dispatch Legacy.AddWaypointClick
                      (Legacy.run legacyBeforeG1 Legacy.initial)))))) /\
  Ok (Legacy.route
        (Legacy.app
           (Legacy.run [Legacy.OpenSidebar]
              (Legacy.deliver
                 (length
                    (Legacy.requests
                       (Legacy.run legacyBetween
                          (Legacy.dispatch Legacy.AddWaypointClick
                             (Legacy.run legacyBeforeG1 Legacy.initial)))))
                 oneRoute
                 (Legacy.run legacyAfter
                    (Legacy.dispatch Legacy.AddWaypointClick
                       (Legacy.run legacyBetween
                          (Legacy.dispatch Legacy.AddWaypointClick
                             (Legacy.run legacyBeforeG1
                                Legacy.initial)))))))))
  = settle
      (fetchRoute
         (Legacy.waypoints
            (Legacy.app
               (Legacy.dispatch Legacy.AddWaypointClick
                  (Legacy.run legacyBetween
                     (Legacy.dispatch Legacy.AddWaypointClick
                        (Legacy.run legacyBeforeG1 Legacy.initial)))))))
      oneRoute.
Proof.
  destruct (legacy_superseded_response_discarded legacyBeforeG1 legacyBetween
              legacyAfter [Legacy.OpenSidebar] Legacy.AddWaypointClick
              Legacy.AddWaypointClick oneRoute
              ltac:(split; [vm_compute; reflexivity | vm_compute; lia])
              ltac:(split; [vm_compute; reflexivity | vm_compute; lia])
              ltac:(vm_compute; reflexivity)
              ltac:(vm_compute; reflexivity))
    as (_ & _ & H1 & H2).
  split; [exact H1 | exact H2].
Defined.

(** X17.  In any execution of the single-route application after
    mounting, once a waypoint is placed "Clear Route" empties the
    waypoints and the route and sends no request.  From then on, through
    any events that place no waypoint (clicks, the sidebar, the answers to
    all requests sent before, in any order and at any time), the waypoints
    and the route stay empty, so no line is drawn. *)
Theorem legacy_clear_makes_late_answer_inert (es0 es : list Legacy.Event) :
  let ra := Legacy.run es0 Legacy.initial in
  let rc := Legacy.dispatch Legacy.ClearRoute ra in
  (0 < length (Legacy.waypoints (Legacy.app ra)))%nat ->
  forallb legacyKeepsWaypoints es = true ->
  Legacy.waypoints (Legacy.app rc) = [] /\
  Legacy.route (Legacy.app rc) = [] /\
  Legacy.requests rc = Legacy.requests ra /\
  Legacy.waypoints (Legacy.app (Legacy.run es rc)) = [] /\
  Legacy.route (Legacy.app (Legacy.run es rc)) = [] /\
  Legacy.showsRoute (Legacy.app (Legacy.run es rc)) = false.
Proof.
  intros ra rc Hpos Hes.
  assert (Hra : legacySound ra) by apply legacySound_run, legacySound_initial.
  assert (E : rc =
              Legacy.mkRuntime
                (Legacy.commit [Legacy.setRoute []]
                   (Legacy.commit
                      [Legacy.setWaypoints (fun _ => []); Legacy.setRoute []]
                      (Legacy.app ra)))
                (Legacy.runCleanup ra) (Legacy.requests ra) None).
  { unfold rc, Legacy.dispatch, Legacy.handler.
    destruct (Nat.ltb_spec 0 (length (Legacy.waypoints (Legacy.app ra))));
      [reflexivity | lia]. }
  assert (Hno : legacyNoLive rc).
  { rewrite E. intros m q (_ & _ & Hon). simpl in Hon.
    rewrite (legacy_runCleanup_all_false ra _ (proj1 Hra)) in Hon.
    discriminate. }
  destruct (legacy_noLive_run es rc Hno Hes) as (Hroute & Hways).
  assert (Hw : Legacy.waypoints (Legacy.app rc) = [])
    by (rewrite E; reflexivity).
  assert (Hr : Legacy.route (Legacy.app rc) = [])
    by (rewrite E; reflexivity).
  repeat split.
  - exact Hw.
  - exact Hr.
  - rewrite E. reflexivity.
  - congruence.
  - congruence.
  - unfold Legacy.showsRoute. rewrite Hroute, Hr. reflexivity.
Qed.

Lemma legacy_clear_makes_late_answer_inert_witness :
  Legacy.requests
    (Legacy.dispatch Legacy.ClearRoute
       (Legacy.run (legacyBeforeG1 ++ [Legacy.AddWaypointClick])
          Legacy.initial))
  = Legacy.requests
      (Legacy.run (legacyBeforeG1 ++ [Legacy.AddWaypointClick])
         Legacy.initial) /\
  Legacy.route
    (Legacy.app
       (Legacy.run legacyAfter
          (Legacy.dispatch Legacy.ClearRoute
             (Legacy.run (legacyBeforeG1 ++ [Legacy.AddWaypointClick])
                Legacy.initial)))) = [].
Proof.
  destruct (legacy_clear_makes_late_answer_inert
              (legacyBeforeG1 ++ [Legacy.AddWaypointClick]) legacyAfter
              ltac:(vm_compute; lia) ltac:(vm_compute; reflexivity))
    as (_ & _ & H1 & _ & H2 & _).
  split; [exact H1 | exact H2].
Defined.
